(** * Zed workspace search (Flow Launcher plugin): model of [main.py]

    A shallow embedding of the pure part of the plugin: path
    normalisation, row classification, the two de-duplication maps of
    [_load_workspaces], the presentation mapping of [query] with its last
    de-duplication pass, and [context_menu].

    Conventions of the model.
    - A Python [str] is a [string]; the model covers ASCII text, on which
      [str.lower], [str.capitalize] and [str.strip] are the ASCII
      operations below (characters above 127 are left as they are).
      Outside ASCII Python's [str.lower] may change the length of a
      string; no statement below is about the length of a lower-cased
      string.
    - A Python [dict] that is iterated ([by_normalized],
      [by_workspace_id]) is an association list in insertion order; the
      [set] of seen keys in [query] is a [gset].
    - The database read is the one effect of [_load_workspaces]; its three
      outcomes (file absent, exception, rows) are a value of
      [fetch_outcome].
    - [pathlib] is not part of the plugin: [Path(p).name] is a parameter
      [path_name] of the section; [windows_name] is an executable model of
      it for Windows paths, used to run the definitions on examples. *)

From Stdlib Require Import Ascii String ZArith Lia Sorted.
From stdpp Require Import base list strings gmap pretty.
From Equations Require Import Equations.


(** ** Python string methods *)

Module PyStr.

Definition slash : ascii := "/"%char.
Definition backslash : ascii := "\"%char.

Definition is_upper (c : ascii) : bool :=
  ((65 <=? nat_of_ascii c) && (nat_of_ascii c <=? 90))%nat.

Definition is_lower (c : ascii) : bool :=
  ((97 <=? nat_of_ascii c) && (nat_of_ascii c <=? 122))%nat.

Definition lower_char (c : ascii) : ascii :=
  if is_upper c then ascii_of_nat (nat_of_ascii c + 32) else c.

Definition upper_char (c : ascii) : ascii :=
  if is_lower c then ascii_of_nat (nat_of_ascii c - 32) else c.

(** [s.lower()] *)
Fixpoint lower (s : string) : string :=
  match s with
  | "" => ""
  | String c r => String (lower_char c) (lower r)
  end.

(** [s.capitalize()]: first character upper-cased, the rest lower-cased. *)
Definition capitalize (s : string) : string :=
  match s with
  | "" => ""
  | String c r => String (upper_char c) (lower r)
  end.

(** [s.replace(a, b)] for one-character [a] and [b]. *)
Fixpoint replace_char (a b : ascii) (s : string) : string :=
  match s with
  | "" => ""
  | String c r => String (if bool_decide (c = a) then b else c) (replace_char a b r)
  end.

(** [s.startswith(p)] *)
Fixpoint startswith (p s : string) : bool :=
  match p, s with
  | "", _ => true
  | String _ _, "" => false
  | String a p', String c s' => bool_decide (c = a) && startswith p' s'
  end.

(** [q in s] *)
Fixpoint contains (q s : string) : bool :=
  startswith q s ||
  match s with
  | "" => false
  | String _ r => contains q r
  end.

(** [s.replace("//", "/")]: one pass from the left over
    non-overlapping occurrences. *)
Fixpoint replace_dslash (s : string) : string :=
  match s with
  | "" => ""
  | String c r =>
      match r with
      | String c' r' =>
          if bool_decide (c = slash) && bool_decide (c' = slash)
          then String slash (replace_dslash r')
          else String c (replace_dslash r)
      | "" => String c ""
      end
  end.

(** [s.endswith("/")] *)
Fixpoint ends_with_slash (s : string) : bool :=
  match s with
  | "" => false
  | String c "" => bool_decide (c = slash)
  | String _ r => ends_with_slash r
  end.

(** [s.rstrip(chars)] for the characters satisfying [p]: the longest
    suffix made of such characters is removed. *)
Fixpoint rstrip_by (p : ascii → bool) (s : string) : string :=
  match s with
  | "" => ""
  | String c r =>
      match rstrip_by p r with
      | "" => if p c then "" else String c ""
      | r' => String c r'
      end
  end.

Fixpoint lstrip_by (p : ascii → bool) (s : string) : string :=
  match s with
  | "" => ""
  | String c r => if p c then lstrip_by p r else s
  end.

(** [s.rstrip("/")] *)
Definition rstrip_slash : string → string :=
  rstrip_by (λ c, bool_decide (c = slash)).

(** [c.isspace()] on ASCII: tab, LF, VT, FF, CR, the four separators
    FS, GS, RS, US, and the space. *)
Definition is_space (c : ascii) : bool :=
  let n := nat_of_ascii c in
  ((9 <=? n) && (n <=? 13) || (28 <=? n) && (n <=? 32))%nat.

(** [s.strip()] *)
Definition strip (s : string) : string :=
  lstrip_by is_space (rstrip_by is_space s).

(** Every character of [s] satisfies [f]. *)
Fixpoint all_chars (f : ascii → bool) (s : string) : bool :=
  match s with
  | "" => true
  | String c r => f c && all_chars f r
  end.

(** [len(s)] *)
Abbreviation len := String.length.

End PyStr.

Import PyStr.

(** ** [normalize] *)

(** The loop [while "//" in s: s = s.replace("//", "/")]. Each round
    shortens the string, which is the measure of the recursion. *)
Lemma contains_dslash_cons2 (c c' : ascii) (r : string) :
  contains "//" (String c (String c' r)) =
  bool_decide (c = slash) && bool_decide (c' = slash)
  || contains "//" (String c' r).
Proof.
  cbn [contains startswith]. by destruct r; rewrite andb_true_r.
Qed.

Lemma contains_dslash_single (c : ascii) : contains "//" (String c "") = false.
Proof. cbn [contains startswith]. by rewrite andb_false_r. Qed.

Lemma replace_dslash_cons2 (c c' : ascii) (r : string) :
  replace_dslash (String c (String c' r)) =
  if bool_decide (c = slash) && bool_decide (c' = slash)
  then String slash (replace_dslash r)
  else String c (replace_dslash (String c' r)).
Proof. done. Qed.

Lemma string_ind2 (P : string → Prop) :
  P "" → (∀ c, P (String c "")) →
  (∀ c c' r, P r → P (String c' r) → P (String c (String c' r))) →
  ∀ s, P s.
Proof.
  intros H0 H1 H2 s.
  enough (P s ∧ ∀ c, P (String c s)) by tauto.
  induction s as [|c' r [IH1 IH2]]; split; auto.
Qed.

Lemma replace_dslash_le (s : string) : len (replace_dslash s) ≤ len s.
Proof.
  induction s as [|c|c c' r IH1 IH2] using string_ind2; [simpl; lia..|].
  cbn [replace_dslash].
  destruct (bool_decide (c = slash) && bool_decide (c' = slash)); simpl in *; lia.
Qed.

Lemma replace_dslash_shorter (s : string) :
  contains "//" s = true → len (replace_dslash s) < len s.
Proof.
  induction s as [|c|c c' r IH1 IH2] using string_ind2.
  - discriminate.
  - by rewrite contains_dslash_single.
  - rewrite contains_dslash_cons2. cbn [replace_dslash].
    destruct (bool_decide (c = slash) && bool_decide (c' = slash)); simpl.
    + intros _. pose proof (replace_dslash_le r). lia.
    + intros H. apply IH2 in H. simpl in H. lia.
Qed.

Equations collapse_slashes (s : string) : string by wf (len s) lt :=
  collapse_slashes s with decide (contains "//" s = true) := {
    | left _ => collapse_slashes (replace_dslash s)
    | right _ => s }.
Next Obligation. by apply replace_dslash_shorter. Qed.

(** [normalize(p)] for a [str] argument. *)
Definition normalize (p : string) : string :=
  let s := replace_char backslash slash p in
  let s := collapse_slashes s in
  let s := if (1 <? len s)%nat && ends_with_slash s then rstrip_slash s else s in
  lower s.

(** ** Values and rows *)

(** The Python values that travel through the plugin's JSON-RPC
    parameter lists: [None], [bool], [int] and [str]. *)
Inductive pyval :=
| PNone
| PBool (b : bool)
| PInt (z : Z)
| PStr (s : string).

(** Truth value of a Python value, as [if v:] tests it. *)
Definition truthy (v : pyval) : bool :=
  match v with
  | PNone => false
  | PBool b => b
  | PInt z => negb (z =? 0)%Z
  | PStr s => negb (bool_decide (s = ""))
  end.

(** [str(v)], as an f-string formats a value. *)
Definition py_str (v : pyval) : string :=
  match v with
  | PNone => "None"
  | PBool true => "True"
  | PBool false => "False"
  | PInt z => pretty z
  | PStr s => s
  end.

Definition of_opt_str (o : option string) : pyval :=
  match o with Some s => PStr s | None => PNone end.

Definition of_opt_int (o : option Z) : pyval :=
  match o with Some z => PInt z | None => PNone end.

(** A column value as [sqlite3] hands it over: [None] for NULL, [int],
    [str] for TEXT, [bytes] for BLOB. *)
Inductive sqlval :=
| SNull
| SInt (z : Z)
| SText (s : string)
| SBlob (b : list ascii).

(** One row of the [SELECT]: [(wid, path, rc_kind, rc_host, rc_port,
    rc_user)]. The workspace id is an integer key; the columns of the
    joined [remote_connections] row are NULL ([None]) or have their
    declared type. The path column is kept as a raw value because the
    loop tests its type. *)
Record Row := {
  wid : Z;
  paths : sqlval;
  rc_kind : option string;
  rc_host : option string;
  rc_port : option Z;
  rc_user : option string;
}.

(** The dict [workspace_data]. The keys ["id"], ["path"], ["is_wsl"] and
    ["is_ssh"] are in every such dict; the other four are missing from
    the dict built after an exception, so they are optional here:
    [None] is a missing key, [Some None] the value [None]. *)
Record workspace := {
  w_id : Z;
  w_path : string;
  w_normalized : option string;
  w_is_wsl : bool;
  w_is_ssh : bool;
  w_ssh_host : option (option string);
  w_ssh_user : option (option string);
  w_ssh_port : option (option Z);
}.

(** The three connection types of the specification, read off the two
    flags in the order in which [query] tests them. *)
Inductive connection_type := Local | WSL | SSH.

Definition connection_type_of (w : workspace) : connection_type :=
  if w_is_ssh w then SSH else if w_is_wsl w then WSL else Local.

(** ** Module-level functions *)

Definition is_wsl_path (p : string) : bool :=
  startswith "/home/" p || startswith "/mnt/" p.

Definition build_ssh_uri (host path : string)
    (user : option string) (port : option Z) : string :=
  let uri := "ssh://" in
  let uri := if truthy (of_opt_str user)
             then uri +:+ default "" user +:+ "@" else uri in
  let uri := uri +:+ host in
  let uri := if truthy (of_opt_int port)
             then uri +:+ ":" +:+ py_str (of_opt_int port) else uri in
  uri +:+ path.

(** [normalize] on a raw column value: anything but a [str] gives [""]. *)
Definition normalize_val (v : sqlval) : string :=
  match v with
  | SText p => normalize p
  | _ => ""
  end.

(** ** Dicts in insertion order *)

Section Dict.
Context {K V : Type} `{EqDecision K}.

(** [d.get(k)] *)
Fixpoint dict_get (k : K) (d : list (K * V)) : option V :=
  match d with
  | [] => None
  | (k', v) :: d' => if decide (k = k') then Some v else dict_get k d'
  end.

(** [d[k] = v]: an existing key keeps its place, a new one goes last. *)
Fixpoint dict_set (k : K) (v : V) (d : list (K * V)) : list (K * V) :=
  match d with
  | [] => [(k, v)]
  | (k', v') :: d' =>
      if decide (k = k') then (k, v) :: d' else (k', v') :: dict_set k v d'
  end.

(** [list(d.values())] *)
Definition dict_values (d : list (K * V)) : list V := d.*2.

(** [bool(d)] *)
Definition dict_nonempty (d : list (K * V)) : bool :=
  match d with [] => false | _ => true end.
End Dict.

(** ** A stable sort by string key *)

Section Sort.
Context {A : Type} (key : A → string).

Fixpoint insert_by (x : A) (l : list A) : list A :=
  match l with
  | [] => [x]
  | y :: l' =>
      if String.leb (key x) (key y) then x :: l else y :: insert_by x l'
  end.

(** [l.sort(key=key)]: equal keys keep their order. *)
Fixpoint sort_by (l : list A) : list A :=
  match l with
  | [] => []
  | x :: l' => insert_by x (sort_by l')
  end.
End Sort.

(** ** Presentation records *)

Record action := {
  method : string;
  parameters : list pyval;
}.

(** A result dict of [query]; the "nothing found" dict has neither
    ["JsonRPCAction"] nor ["ContextData"]. *)
Record entry := {
  Title : string;
  SubTitle : string;
  IcoPath : string;
  JsonRPCAction : option action;
  ContextData : option (list pyval);
}.

(** The result dict of [context_menu]; its subtitle is [data[0]] as it
    came. *)
Record menu_entry := {
  MenuTitle : string;
  MenuSubTitle : pyval;
  MenuIcoPath : string;
  MenuAction : action;
}.

Inductive pyerror := IndexError | AttributeError.

Inductive outcome (A : Type) :=
| Returns (a : A)
| Raises (e : pyerror).
Arguments Returns {A} a.
Arguments Raises {A} e.

(** What the database read of [_load_workspaces] comes to. *)
Inductive fetch_outcome :=
| DbMissing                      (* [ZED_DB_PATH.exists()] is false *)
| DbError (e : string)           (* an exception, [e] is [str(e)] *)
| DbRows (rows : list Row).      (* [cur.fetchall()] *)

(** ** [ZedWorkspaceSearch] *)

Section ZedWorkspaceSearch.
(** [Path(p).name] of pathlib, and [str(ZED_DB_PATH)]. *)
Variable path_name : string → string.
Variable zed_db_path : string.

(** The dict built in the loop body for a row whose path is the
    non-empty string [path]. *)
Definition workspace_data (r : Row) (path : string) : workspace :=
  let norm := normalize path in
  let is_ssh :=
    bool_decide (rc_kind r = Some "ssh") && bool_decide (rc_host r ≠ None) in
  let is_wsl := negb is_ssh && is_wsl_path path in
  {| w_id := wid r;
     w_path := path;
     w_normalized := Some norm;
     w_is_wsl := is_wsl;
     w_is_ssh := is_ssh;
     w_ssh_host := Some (if is_ssh then rc_host r else None);
     w_ssh_user := Some (if is_ssh then rc_user r else None);
     w_ssh_port := Some (if is_ssh then rc_port r else None) |}.

(** The guard [if not path or not isinstance(path, str): continue]
    followed by the construction of the dict: [None] for a skipped
    row. *)
Definition workspace_data_of (r : Row) : option workspace :=
  match paths r with
  | SText path =>
      if bool_decide (path = "") then None else Some (workspace_data r path)
  | _ => None
  end.

(** The two dicts of the loop. *)
Record load_state := {
  by_normalized : list (string * workspace);
  by_workspace_id : list (Z * workspace);
}.

Definition load_init : load_state :=
  {| by_normalized := []; by_workspace_id := [] |}.

(** One round of [for wid, path, ... in rows]. *)
Definition load_step (st : load_state) (r : Row) : load_state :=
  match workspace_data_of r with
  | None => st
  | Some w =>
      let norm := normalize (w_path w) in
      let bn := by_normalized st in
      let bw := by_workspace_id st in
      let bn' :=
        match dict_get norm bn with
        | None => dict_set norm w bn
        | Some existing =>
            if (len (w_path w) <? len (w_path existing))%nat
            then dict_set norm w bn else bn
        end in
      let bw' :=
        match dict_get (w_id w) bw with
        | None => dict_set (w_id w) w bw
        | Some existing =>
            if (len (w_path w) <? len (w_path existing))%nat
            then dict_set (w_id w) w bw else bw
        end in
      {| by_normalized := bn'; by_workspace_id := bw' |}
  end.

Definition load_loop (rows : list Row) : load_state :=
  foldl load_step load_init rows.

(** [results] before it is sorted. *)
Definition load_results (st : load_state) : list workspace :=
  if dict_nonempty (by_normalized st)
  then dict_values (by_normalized st)
  else dict_values (by_workspace_id st).

Definition sort_key (w : workspace) : string := lower (path_name (w_path w)).

(** The dict returned from the [except] branch. *)
Definition error_workspace (e : string) : workspace :=
  {| w_id := -1;
     w_path := "<Error reading DB: " +:+ e +:+ ">";
     w_normalized := None;
     w_is_wsl := false;
     w_is_ssh := false;
     w_ssh_host := None;
     w_ssh_user := None;
     w_ssh_port := None |}.

Definition _load_workspaces (db : fetch_outcome) : list workspace :=
  match db with
  | DbMissing => []
  | DbError e => [error_workspace e]
  | DbRows rows => sort_by sort_key (load_results (load_loop rows))
  end.

(** [name] in the loop of [query]: [Path(w["path"]).name or w["path"]],
    capitalized when it is not empty. No call in the [try] block
    raises on a [str], so the [except] branch is not reached. *)
Definition display_name (w : workspace) : string :=
  let name := path_name (w_path w) in
  let name := if bool_decide (name = "") then w_path w else name in
  if bool_decide (name = "") then name else capitalize name.

Definition title_of (w : workspace) : string :=
  let name := display_name w in
  if w_is_ssh w then
    let ssh_host :=
      match w_ssh_host w with
      | Some h => of_opt_str h
      | None => PStr "remote"
      end in
    name +:+ " (SSH: " +:+ py_str ssh_host +:+ ")"
  else if w_is_wsl w then name +:+ " (WSL)"
  else name.

(** The positional list [path, is_ssh, ssh_host, ssh_user, ssh_port]. *)
Definition launch_parameters (w : workspace) : list pyval :=
  [ PStr (w_path w);
    PBool (w_is_ssh w);
    of_opt_str (mjoin (w_ssh_host w));
    of_opt_str (mjoin (w_ssh_user w));
    of_opt_int (mjoin (w_ssh_port w)) ].

Definition present (w : workspace) : entry :=
  {| Title := title_of w;
     SubTitle := w_path w;
     IcoPath := "assets/zed.png";
     JsonRPCAction :=
       Some {| method := "open_workspace";
               parameters := launch_parameters w |};
     ContextData := Some (launch_parameters w) |}.

Definition not_found : entry :=
  {| Title := "No Zed workspaces found";
     SubTitle := zed_db_path;
     IcoPath := "assets/zed.png";
     JsonRPCAction := None;
     ContextData := None |}.

(** The key of the last pass of [query]. *)
Definition entry_key (r : entry) : string * string :=
  (lower (strip (Title r)), lower (strip (SubTitle r))).

Definition unique_step (st : list entry * gset (string * string)) (r : entry)
    : list entry * gset (string * string) :=
  let key := entry_key r in
  if decide (key ∈ st.2) then st else (st.1 ++ [r], {[key]} ∪ st.2).

(** The loop [for r in results] that fills [unique]. *)
Definition unique_pass (results : list entry) : list entry :=
  (foldl unique_step ([], ∅) results).1.

(** [w for w in workspaces if q in w["path"].lower()] if [q], else
    [workspaces]. *)
Definition filter_by_query (q : string) (workspaces : list workspace)
    : list workspace :=
  if bool_decide (q = "") then workspaces
  else filter (λ w, contains q (lower (w_path w)) = true) workspaces.

Definition query (db : fetch_outcome) (query_text : string) : list entry :=
  let q := strip (lower query_text) in
  let workspaces := _load_workspaces db in
  match workspaces with
  | [] => [not_found]
  | _ => unique_pass (present <$> filter_by_query q workspaces)
  end.

(** [context_menu(data)]. [data[0]] raises [IndexError] on the empty
    list; [is_wsl_path(path)] calls [path.startswith], which only a
    [str] has among the values of [pyval]. *)
Definition context_menu (data : list pyval) : outcome (list menu_entry) :=
  match data !! 0%nat with
  | None => Raises IndexError
  | Some path =>
      let is_ssh := default (PBool false) (data !! 1%nat) in
      let ssh_host := default PNone (data !! 2%nat) in
      let ssh_user := default PNone (data !! 3%nat) in
      let ssh_port := default PNone (data !! 4%nat) in
      let label :=
        if truthy is_ssh then Returns ("(SSH: " +:+ py_str ssh_host +:+ ")")
        else match path with
             | PStr p => Returns (if is_wsl_path p then "(WSL)" else "(Windows)")
             | _ => Raises AttributeError
             end in
      match label with
      | Raises e => Raises e
      | Returns label =>
          Returns
            [ {| MenuTitle := "Open in Zed " +:+ label;
                 MenuSubTitle := path;
                 MenuIcoPath := "assets/zed.png";
                 MenuAction :=
                   {| method := "open_in_zed";
                      parameters :=
                        [path; is_ssh; ssh_host; ssh_user; ssh_port] |} |} ]
      end
  end.

End ZedWorkspaceSearch.

(** ** [Path(p).name] on Windows

    An executable reading of [PureWindowsPath(p).name] (CPython 3.12):
    forward slashes count as backslashes, the drive and root found by
    [ntpath.splitroot] are set aside, the rest is split at backslashes,
    empty and ["."] components are dropped, and the last component left
    is the name ([""] when there is none). *)

Module WindowsPath.

Fixpoint upper (s : string) : string :=
  match s with
  | "" => ""
  | String c r => String (upper_char c) (upper r)
  end.

(** [s[n:]] and [s[:n]] *)
Fixpoint drop_str (n : nat) (s : string) : string :=
  match n, s with
  | S n', String _ r => drop_str n' r
  | _, _ => s
  end.

Fixpoint take_str (n : nat) (s : string) : string :=
  match n, s with
  | S n', String c r => String c (take_str n' r)
  | _, _ => ""
  end.

(** [s.find(a, start)] for a one-character [a]; [None] stands for -1. *)
Fixpoint find_from (a : ascii) (start : nat) (s : string) : option nat :=
  match s with
  | "" => None
  | String c r =>
      match start with
      | O => if bool_decide (c = a) then Some O else S <$> find_from a O r
      | S n => S <$> find_from a n r
      end
  end.

(** [s.split(a)] for a one-character [a]. *)
Fixpoint split_on (a : ascii) (s : string) : list string :=
  match s with
  | "" => [""]
  | String c r =>
      if bool_decide (c = a) then "" :: split_on a r
      else match split_on a r with
           | h :: t => String c h :: t
           | [] => [String c ""]
           end
  end.

(** Third component of [ntpath.splitroot(p)], for [p] without forward
    slashes. *)
Definition splitroot_rel (p : string) : string :=
  if startswith "\" p then
    if startswith "\\" p then
      let start :=
        if bool_decide (upper (take_str 8 p) = "\\?\UNC\") then 8 else 2 in
      match find_from backslash start p with
      | None => ""
      | Some index =>
          match find_from backslash (S index) p with
          | None => ""
          | Some index2 => drop_str (S index2) p
          end
      end
    else drop_str 1 p
  else if bool_decide (String.get 1 p = Some ":"%char) then
    if bool_decide (String.get 2 p = Some backslash)
    then drop_str 3 p else drop_str 2 p
  else p.

Definition windows_name (p : string) : string :=
  let path := replace_char slash backslash p in
  let rel := splitroot_rel path in
  let parsed :=
    filter (λ x, x ≠ "" ∧ x ≠ ".") (split_on backslash rel) in
  default "" (last parsed).

End WindowsPath.

Import WindowsPath.

(** ** Groups of rows

    The vocabulary of the statements about the loop: the rows of a
    normalized key, and the representative the specification asks for. *)

(** Row [r] is kept by the guard, gives the record [w], and [w] has the
    normalized key [k]. *)
Definition in_group (k : string) (r : Row) (w : workspace) : Prop :=
  workspace_data_of r = Some w ∧ normalize (w_path w) = k.

(** [w] is the record of the row at index [i], which is in the group of
    [k]; no row of the group has a shorter raw path, and none with a path
    of the same length comes before index [i]. *)
Definition first_shortest_at
    (rows : list Row) (k : string) (w : workspace) (i : nat) : Prop :=
  (∃ r, rows !! i = Some r ∧ in_group k r w) ∧
  ∀ j r' w', rows !! j = Some r' → in_group k r' w' →
    len (w_path w) ≤ len (w_path w') ∧
    (len (w_path w') = len (w_path w) → i ≤ j).

(** ** Sample rows *)

(** A row of a local workspace (no joined remote connection). *)
Definition local_row (i : Z) (p : string) : Row :=
  {| wid := i; paths := SText p;
     rc_kind := None; rc_host := None; rc_port := None; rc_user := None |}.

(** A row joined to an SSH remote connection. *)
Definition ssh_row (i : Z) (p host : string)
    (user : option string) (port : option Z) : Row :=
  {| wid := i; paths := SText p;
     rc_kind := Some "ssh"; rc_host := Some host;
     rc_port := port; rc_user := user |}.

(** ** Launching

    [open_workspace] and [open_in_zed] return nothing; what they do is
    one call of [subprocess.Popen] or of [webbrowser.open], kept here as
    a value. Their arguments have the types of the positional list that
    [query] builds: a [str], a [bool], and optional host, user and
    port. *)

Inductive effect :=
| Popen (args : list string) (shell : bool) (create_no_window : bool)
| webbrowser_open (url : string).

Section Launch.
(** [Path(path).exists()] and [str(Path(path))]. *)
Variable path_exists : string → bool.
Variable path_str : string → string.

Definition open_workspace (path : string) (is_ssh : bool)
    (ssh_host ssh_user : option string) (ssh_port : option Z) : effect :=
  if is_ssh && truthy (of_opt_str ssh_host) then
    let ssh_uri := build_ssh_uri (default "" ssh_host) path ssh_user ssh_port in
    Popen ["zed"; ssh_uri] false true
  else if is_wsl_path path then
    Popen ["wsl"; "zed"; path] false true
  else if path_exists path then
    Popen ["zed"; path_str path] false true
  else webbrowser_open "file:///".

Definition open_in_zed (path : string) (is_ssh : bool)
    (ssh_host ssh_user : option string) (ssh_port : option Z) : effect :=
  if is_ssh && truthy (of_opt_str ssh_host) then
    let ssh_uri := build_ssh_uri (default "" ssh_host) path ssh_user ssh_port in
    Popen ["zed"; ssh_uri] false true
  else if is_wsl_path path then
    Popen ["wsl"; "zed"; path] false true
  else Popen ["zed"; path] false true.

End Launch.

(** ** Vocabulary of the further statements *)

(** Every run of consecutive slashes replaced by one slash, in a single
    pass: what the loop of [normalize] is meant to compute. *)
Fixpoint squeeze_slashes (s : string) : string :=
  match s with
  | "" => ""
  | String c r =>
      match r with
      | String c' _ =>
          if bool_decide (c = slash) && bool_decide (c' = slash)
          then squeeze_slashes r
          else String c (squeeze_slashes r)
      | "" => String c ""
      end
  end.

(** [first_shortest_at] for any grouping [kf] of the records: [w] is the
    record of the row at index [i], of group [k]; no row of the group
    has a shorter raw path, and none with a path of the same length
    comes before index [i]. *)
Definition first_shortest_by {K : Type} (kf : workspace → K)
    (rows : list Row) (k : K) (w : workspace) (i : nat) : Prop :=
  (∃ r, rows !! i = Some r ∧ workspace_data_of r = Some w ∧ kf w = k) ∧
  ∀ j r' w', rows !! j = Some r' → workspace_data_of r' = Some w' →
    kf w' = k →
    len (w_path w) ≤ len (w_path w') ∧
    (len (w_path w') = len (w_path w) → i ≤ j).

(** The test of the filter of [query] on one record. *)
Definition matches_query (q : string) (w : workspace) : bool :=
  bool_decide (q = "") || contains q (lower (w_path w)).

(** * Properties *)

(** ** Strings *)

Section StringFacts.

Lemma lower_char_idemp c : lower_char (lower_char c) = lower_char c.
Proof. by destruct c as [[] [] [] [] [] [] [] []]. Qed.

Lemma lower_char_eq_slash c : lower_char c = slash ↔ c = slash.
Proof. destruct c as [[] [] [] [] [] [] [] []]; by vm_compute. Qed.

Lemma lower_char_eq_backslash c : lower_char c = backslash ↔ c = backslash.
Proof. destruct c as [[] [] [] [] [] [] [] []]; by vm_compute. Qed.

Lemma lower_idemp s : lower (lower s) = lower s.
Proof. induction s; simpl; by rewrite ?lower_char_idemp, ?IHs. Qed.

Lemma lower_length s : len (lower s) = len s.
Proof. induction s; simpl; auto. Qed.

Lemma lower_ends_with_slash s : ends_with_slash (lower s) = ends_with_slash s.
Proof.
  induction s as [|c|c c' r _ IH] using string_ind2; [done| |].
  - cbn [lower ends_with_slash]. apply bool_decide_ext, lower_char_eq_slash.
  - exact IH.
Qed.

Lemma lower_contains_dslash s : contains "//" (lower s) = contains "//" s.
Proof.
  induction s as [|c|c c' r _ IH] using string_ind2; [done| |].
  - cbn [lower]. by rewrite !contains_dslash_single.
  - cbn [lower] in *. rewrite !contains_dslash_cons2, IH.
    by rewrite !(bool_decide_ext _ _ (lower_char_eq_slash _)).
Qed.

Lemma replace_char_length a b s : len (replace_char a b s) = len s.
Proof. induction s; simpl; auto. Qed.

Lemma replace_char_absent a b s :
  all_chars (λ c, negb (bool_decide (c = a))) s = true →
  replace_char a b s = s.
Proof.
  induction s as [|c r IH]; [done|]. cbn [all_chars replace_char].
  intros [Hc Hr]%andb_true_iff. rewrite IH by done.
  by apply negb_true_iff in Hc as ->.
Qed.

Lemma replace_char_all a b s :
  a ≠ b → all_chars (λ c, negb (bool_decide (c = a))) (replace_char a b s) = true.
Proof.
  intros Hab. induction s as [|c r IH]; [done|]. cbn [all_chars replace_char].
  rewrite IH, andb_true_r. apply negb_true_iff, bool_decide_eq_false_2.
  case_bool_decide; congruence.
Qed.

Lemma replace_dslash_all f s :
  all_chars f s = true → all_chars f (replace_dslash s) = true.
Proof.
  induction s as [|c|c c' r IH1 IH2] using string_ind2; [done..|].
  rewrite replace_dslash_cons2. intros H.
  assert (f c = true ∧ f c' = true ∧ all_chars f r = true) as (Hc & Hc' & Hr).
  { cbn [all_chars] in H. by repeat (apply andb_true_iff in H as [? H]). }
  destruct (bool_decide (c = slash) && bool_decide (c' = slash)) eqn:E.
  - apply andb_true_iff in E as [->%bool_decide_eq_true _].
    cbn [all_chars]. by rewrite Hc, IH1.
  - cbn [all_chars]. rewrite Hc, IH2; [done|]. cbn [all_chars]. by rewrite Hc', Hr.
Qed.

Lemma replace_dslash_nonempty s : s ≠ "" → replace_dslash s ≠ "".
Proof.
  destruct s as [|c [|c' r]]; [done..|]. intros _. rewrite replace_dslash_cons2.
  by destruct (bool_decide (c = slash) && bool_decide (c' = slash)).
Qed.

Lemma collapse_slashes_no_dslash s :
  contains "//" (collapse_slashes s) = false.
Proof.
  funelim (collapse_slashes s); [done|].
  by apply not_true_is_false.
Qed.

Lemma collapse_slashes_fixed s :
  contains "//" s = false → collapse_slashes s = s.
Proof. intros H. simp collapse_slashes. by destruct (decide _); [congruence|]. Qed.

Lemma collapse_slashes_all f s :
  all_chars f s = true → all_chars f (collapse_slashes s) = true.
Proof. funelim (collapse_slashes s); auto using replace_dslash_all. Qed.

Lemma collapse_slashes_nonempty s : s ≠ "" → collapse_slashes s ≠ "".
Proof. funelim (collapse_slashes s); auto using replace_dslash_nonempty. Qed.

Lemma contains_dslash_app s t :
  contains "//" (s +:+ t) = false → contains "//" s = false.
Proof.
  induction s as [|c|c c' r _ IH] using string_ind2; [done| |].
  - by rewrite contains_dslash_single.
  - change (String c (String c' r) +:+ t) with (String c (String c' r +:+ t)).
    change (String c' r +:+ t) with (String c' (r +:+ t)) at 1.
    rewrite !contains_dslash_cons2.
    intros [-> H]%orb_false_iff. by rewrite IH.
Qed.

Lemma all_slashes_dslash s :
  all_chars (λ c, bool_decide (c = slash)) s = true → 1 < len s →
  contains "//" s = true.
Proof.
  destruct s as [|c [|c' r]]; [simpl; lia..|]. intros H _.
  rewrite contains_dslash_cons2. cbn [all_chars] in H.
  apply andb_true_iff in H as [-> [-> _]%andb_true_iff]. done.
Qed.

(** [rstrip_by p s] is [s] without a suffix of characters in [p]. *)
Lemma rstrip_by_split p s :
  ∃ t, s = rstrip_by p s +:+ t ∧ all_chars p t = true.
Proof.
  induction s as [|c r (t & Hr & Ht)]; [by exists ""|].
  cbn [rstrip_by]. destruct (rstrip_by p r) as [|c' r'] eqn:E.
  - destruct (p c) eqn:Hc.
    + exists (String c r). split; [done|]. cbn [all_chars].
      rewrite Hc. by rewrite Hr.
    + exists t. split; [|done]. by rewrite Hr at 1.
  - exists t. split; [|done]. by rewrite Hr at 1.
Qed.

Lemma rstrip_slash_empty s :
  rstrip_slash s = "" → all_chars (λ c, bool_decide (c = slash)) s = true.
Proof.
  intros E. destruct (rstrip_by_split (λ c, bool_decide (c = slash)) s)
    as (t & Hs & Ht).
  unfold rstrip_slash in E. rewrite E in Hs. by rewrite Hs.
Qed.

Lemma rstrip_slash_ends s : ends_with_slash (rstrip_slash s) = false.
Proof.
  unfold rstrip_slash. induction s as [|c r IH]; [done|].
  cbn [rstrip_by]. destruct (rstrip_by _ r) as [|c' r'] eqn:E.
  - destruct (bool_decide (c = slash)) eqn:Hc; [done|]. by cbn; rewrite Hc.
  - exact IH.
Qed.

Lemma rstrip_by_all f p s :
  all_chars f s = true → all_chars f (rstrip_by p s) = true.
Proof.
  induction s as [|c r IH]; [done|]. cbn [all_chars rstrip_by].
  intros [Hc Hr]%andb_true_iff. specialize (IH Hr).
  destruct (rstrip_by p r) as [|c' r'].
  - destruct (p c); [done|]. cbn. by rewrite Hc.
  - cbn [all_chars] in *. by rewrite Hc, IH.
Qed.

Lemma rstrip_slash_no_dslash s :
  contains "//" s = false → contains "//" (rstrip_slash s) = false.
Proof.
  intros H. destruct (rstrip_by_split (λ c, bool_decide (c = slash)) s)
    as (t & Hs & _).
  rewrite Hs in H. by apply contains_dslash_app in H.
Qed.

Lemma lower_all_not_backslash s :
  all_chars (λ c, negb (bool_decide (c = backslash))) s = true →
  all_chars (λ c, negb (bool_decide (c = backslash))) (lower s) = true.
Proof.
  induction s as [|c r IH]; [done|]. cbn [all_chars lower].
  intros [Hc Hr]%andb_true_iff. rewrite IH, andb_true_r by done.
  by rewrite (bool_decide_ext _ _ (lower_char_eq_backslash c)).
Qed.

End StringFacts.

(** ** [normalize] *)

Section Normalize.

Lemma backslash_not_slash : backslash ≠ slash.
Proof. done. Qed.

Lemma normalize_no_backslash p :
  all_chars (λ c, negb (bool_decide (c = backslash))) (normalize p) = true.
Proof.
  unfold normalize. apply lower_all_not_backslash.
  assert (H : all_chars (λ c, negb (bool_decide (c = backslash)))
                (collapse_slashes (replace_char backslash slash p)) = true).
  { apply collapse_slashes_all, replace_char_all, backslash_not_slash. }
  destruct (_ && _); [by apply rstrip_by_all|done].
Qed.

Lemma normalize_no_dslash p : contains "//" (normalize p) = false.
Proof.
  unfold normalize. rewrite lower_contains_dslash.
  pose proof (collapse_slashes_no_dslash (replace_char backslash slash p)).
  destruct (_ && _); [by apply rstrip_slash_no_dslash|done].
Qed.

(** The result is a single character or does not end in a slash, so
    the [rstrip] branch is not taken on it. *)
Lemma normalize_no_trailing_slash p :
  (1 <? len (normalize p))%nat && ends_with_slash (normalize p) = false.
Proof.
  unfold normalize. rewrite lower_length, lower_ends_with_slash.
  set (s := collapse_slashes _).
  destruct ((1 <? len s)%nat && ends_with_slash s) eqn:E; [|done].
  by rewrite rstrip_slash_ends, andb_false_r.
Qed.

(** C7. [normalize] is idempotent:
    [normalize(normalize(p)) == normalize(p)] for every string [p]. *)
Theorem normalize_idempotent (p : string) :
  normalize (normalize p) = normalize p.
Proof.
  unfold normalize at 1.
  rewrite (replace_char_absent _ _ _ (normalize_no_backslash p)).
  rewrite (collapse_slashes_fixed _ (normalize_no_dslash p)).
  rewrite normalize_no_trailing_slash.
  unfold normalize. apply lower_idemp.
Qed.

Lemma normalize_nonempty p : p ≠ "" → normalize p ≠ "".
Proof.
  intros Hp. unfold normalize.
  set (s := collapse_slashes (replace_char backslash slash p)).
  assert (Hs : s ≠ "").
  { apply collapse_slashes_nonempty. by destruct p. }
  assert (Hd : contains "//" s = false) by apply collapse_slashes_no_dslash.
  assert (Hl : ∀ t, t ≠ "" → lower t ≠ "") by (by intros []).
  apply Hl. destruct (_ && _) eqn:E; [|done].
  apply andb_true_iff in E as [Hlen%Nat.ltb_lt _].
  intros Hr%rstrip_slash_empty.
  by rewrite (all_slashes_dslash _ Hr Hlen) in Hd.
Qed.

Lemma normalize_empty_inv p : normalize p = "" → p = "".
Proof.
  intros H. destruct (decide (p = "")) as [|Hp]; [done|].
  by apply normalize_nonempty in Hp.
Qed.

End Normalize.

(** ** Classification of a row *)

Section Classification.

Lemma workspace_data_of_Some r w :
  workspace_data_of r = Some w ↔
  ∃ path, paths r = SText path ∧ path ≠ "" ∧ w = workspace_data r path.
Proof.
  unfold workspace_data_of. split.
  - destruct (paths r) as [| |path|]; try done.
    case_bool_decide; [done|]. intros [= <-]. eauto.
  - intros (path & -> & Hne & ->). by rewrite bool_decide_eq_false_2.
Qed.

Lemma workspace_data_of_path r w :
  workspace_data_of r = Some w → paths r = SText (w_path w) ∧ w_path w ≠ "".
Proof. intros (path & ? & ? & ->)%workspace_data_of_Some. done. Qed.

Lemma is_wsl_path_nonempty p : is_wsl_path p = true → p ≠ "".
Proof. by intros H ->. Qed.

(** C3 (as the code has it). For every row that yields a record, the
    record is SSH exactly when the remote kind is the token ["ssh"] and
    the remote host is present (not NULL); the host may be the empty
    string. *)
Theorem ssh_iff_kind_and_host_present (r : Row) (w : workspace) :
  workspace_data_of r = Some w →
  (connection_type_of w = SSH ↔ rc_kind r = Some "ssh" ∧ rc_host r ≠ None).
Proof.
  intros (path & _ & _ & ->)%workspace_data_of_Some.
  unfold connection_type_of, workspace_data. cbn.
  destruct (bool_decide (rc_kind r = Some "ssh")) eqn:Hk;
    destruct (bool_decide (rc_host r ≠ None)) eqn:Hh; cbn;
    [apply bool_decide_eq_true in Hk | apply bool_decide_eq_true in Hk
    |apply bool_decide_eq_false in Hk | apply bool_decide_eq_false in Hk];
    [apply bool_decide_eq_true in Hh | apply bool_decide_eq_false in Hh
    |apply bool_decide_eq_true in Hh | apply bool_decide_eq_false in Hh].
  - done.
  - destruct (is_wsl_path path); split; try done; by intros [_ ?].
  - destruct (is_wsl_path path); split; try done; by intros [? _].
  - destruct (is_wsl_path path); split; try done; by intros [? _].
Qed.

(** C6. A row with remote kind ["ssh"], a non-empty host and a path
    under ["/home/"] or ["/mnt/"] is classified SSH and not WSL; for
    every record the WSL flag is the prefix test on the raw path, taken
    only when the record is not SSH. *)
Theorem ssh_takes_priority_over_wsl (r : Row) (h p : string) :
  rc_kind r = Some "ssh" → rc_host r = Some h → h ≠ "" →
  paths r = SText p → is_wsl_path p = true →
  (∃ w, workspace_data_of r = Some w ∧
        connection_type_of w = SSH ∧ w_is_ssh w = true ∧ w_is_wsl w = false) ∧
  (∀ r' w', workspace_data_of r' = Some w' →
     paths r' = SText (w_path w') ∧
     w_is_wsl w' = negb (w_is_ssh w') && is_wsl_path (w_path w') ∧
     is_wsl_path (w_path w') =
       startswith "/home/" (w_path w') || startswith "/mnt/" (w_path w')).
Proof.
  intros Hk Hh _ Hp Hwsl. split.
  - exists (workspace_data r p). split.
    + apply workspace_data_of_Some. exists p.
      by split_and!; [|apply is_wsl_path_nonempty|].
    + unfold connection_type_of, workspace_data. cbn. rewrite Hk, Hh.
      by rewrite !bool_decide_eq_true_2.
  - intros r' w' (path & Hpath & _ & ->)%workspace_data_of_Some.
    by rewrite Hpath.
Qed.

End Classification.

(** ** Dicts *)

Section DictFacts.
Context {K V : Type} `{EqDecision K}.
Implicit Types (k : K) (v : V) (d : list (K * V)).

Lemma dict_get_set_eq k v d : dict_get k (dict_set k v d) = Some v.
Proof.
  induction d as [|[k' v'] d IH]; cbn.
  - by rewrite decide_True.
  - destruct (decide (k = k')) as [Heq|Hne]; cbn.
    + by rewrite decide_True.
    + by rewrite decide_False.
Qed.

Lemma dict_get_set_ne k k' v d :
  k ≠ k' → dict_get k' (dict_set k v d) = dict_get k' d.
Proof.
  intros Hne. induction d as [|[k'' v''] d IH]; cbn.
  - by rewrite decide_False.
  - destruct (decide (k = k'')) as [<-|]; cbn.
    + by rewrite !decide_False.
    + by rewrite IH.
Qed.

Lemma dict_set_nonempty k v d : dict_set k v d ≠ [].
Proof. destruct d as [|[k' v'] d]; cbn; [done|]. by destruct (decide _). Qed.

Lemma dict_get_nonempty k v d : dict_get k d = Some v → d ≠ [].
Proof. by destruct d. Qed.
End DictFacts.

(** ** The loop of [_load_workspaces] *)

Section LoadLoop.

Lemma load_loop_snoc rows r :
  load_loop (rows ++ [r]) = load_step (load_loop rows) r.
Proof. apply foldl_snoc. Qed.

Lemma load_step_skip st r : workspace_data_of r = None → load_step st r = st.
Proof. unfold load_step. by intros ->. Qed.

(** Lookup in [by_normalized] after one round that keeps the row. *)
Lemma load_step_by_normalized st r w k :
  workspace_data_of r = Some w →
  dict_get k (by_normalized (load_step st r)) =
  if decide (normalize (w_path w) = k) then
    match dict_get k (by_normalized st) with
    | None => Some w
    | Some existing =>
        if (len (w_path w) <? len (w_path existing))%nat
        then Some w else Some existing
    end
  else dict_get k (by_normalized st).
Proof.
  intros Hw. unfold load_step. rewrite Hw. cbn [by_normalized].
  destruct (decide (normalize (w_path w) = k)) as [<-|Hne].
  - destruct (dict_get _ (by_normalized st)) as [existing|] eqn:E.
    + destruct (_ <? _)%nat; [apply dict_get_set_eq|done].
    + apply dict_get_set_eq.
  - destruct (dict_get (normalize _) (by_normalized st)) as [existing|].
    + destruct (_ <? _)%nat; [by apply dict_get_set_ne|done].
    + by apply dict_get_set_ne.
Qed.

Lemma load_step_nonempty st r w :
  workspace_data_of r = Some w →
  by_normalized (load_step st r) ≠ [] ∧ by_workspace_id (load_step st r) ≠ [].
Proof.
  intros Hw. unfold load_step. rewrite Hw. cbn [by_normalized by_workspace_id].
  split.
  - destruct (dict_get _ (by_normalized st)) as [existing|] eqn:E.
    + destruct (_ <? _)%nat; eauto using dict_set_nonempty, dict_get_nonempty.
    + apply dict_set_nonempty.
  - destruct (dict_get _ (by_workspace_id st)) as [existing|] eqn:E.
    + destruct (_ <? _)%nat; eauto using dict_set_nonempty, dict_get_nonempty.
    + apply dict_set_nonempty.
Qed.

(** Both dicts are filled by the same rounds. *)
Lemma load_loop_both_empty rows :
  by_normalized (load_loop rows) = [] ↔ by_workspace_id (load_loop rows) = [].
Proof.
  induction rows as [|r rows IH] using rev_ind; [done|].
  rewrite load_loop_snoc.
  destruct (workspace_data_of r) as [w|] eqn:Hw.
  - destruct (load_step_nonempty (load_loop rows) r w Hw) as [Hn Hi].
    split; intros E; [by apply Hn in E|by apply Hi in E].
  - by rewrite load_step_skip.
Qed.

Lemma load_results_by_normalized rows :
  load_results (load_loop rows) = dict_values (by_normalized (load_loop rows)).
Proof.
  unfold load_results.
  destruct (by_normalized (load_loop rows)) as [|kv d] eqn:E; [|done].
  cbn. apply load_loop_both_empty in E. by rewrite E.
Qed.

(** C9. [normalize] sends a non-empty string to a non-empty string;
    after any sequence of rows [by_normalized] is empty exactly when
    [by_workspace_id] is, so the results are always the values of
    [by_normalized] and the fallback branch adds no record. *)
Theorem fallback_never_contributes
    (path_name : string → string) (p : string) (rows : list Row) :
  (p ≠ "" → normalize p ≠ "") ∧
  (by_normalized (load_loop rows) = [] ↔
   by_workspace_id (load_loop rows) = []) ∧
  load_results (load_loop rows) =
    dict_values (by_normalized (load_loop rows)) ∧
  _load_workspaces path_name (DbRows rows) =
    sort_by (sort_key path_name)
      (dict_values (by_normalized (load_loop rows))).
Proof.
  split_and!.
  - apply normalize_nonempty.
  - apply load_loop_both_empty.
  - apply load_results_by_normalized.
  - cbn. by rewrite load_results_by_normalized.
Qed.

End LoadLoop.

(** ** The canonical representative *)

Section Canonical.

Lemma lookup_snoc_inv {A} (l : list A) (x y : A) j :
  (l ++ [x]) !! j = Some y →
  (j < length l ∧ l !! j = Some y) ∨ (j = length l ∧ y = x).
Proof.
  intros [H|[Hj Hx]]%lookup_app_Some.
  - left. split; [by eapply lookup_lt_Some|done].
  - right. apply list_lookup_singleton_Some in Hx as [Hz ->].
    split; [lia|done].
Qed.

(** A row that is not in the group of [k] leaves its representative. *)
Lemma first_shortest_at_snoc_other rows k w i r :
  (∀ w', ¬ in_group k r w') →
  first_shortest_at rows k w i → first_shortest_at (rows ++ [r]) k w i.
Proof.
  intros Hout [(r0 & Hi & Hg) Hmin]. split.
  - exists r0. split; [|done].
    rewrite lookup_app_l; [done|by eapply lookup_lt_Some].
  - intros j r' w' [[_ Hj]|[_ ->]]%lookup_snoc_inv Hg'.
    + by eapply Hmin.
    + by apply Hout in Hg'.
Qed.

(** What [by_normalized] holds for each key after the loop. *)
Lemma by_normalized_spec rows k :
  match dict_get k (by_normalized (load_loop rows)) with
  | Some w => ∃ i, first_shortest_at rows k w i
  | None => ∀ j r w, rows !! j = Some r → ¬ in_group k r w
  end.
Proof.
  induction rows as [|r rows IH] using rev_ind; [by intros j r w|].
  rewrite load_loop_snoc.
  destruct (workspace_data_of r) as [w0|] eqn:Hw0.
  - rewrite (load_step_by_normalized _ _ _ _ Hw0).
    destruct (decide (normalize (w_path w0) = k)) as [Hk|Hk].
    + assert (Hin : in_group k r w0) by done.
      assert (Hlast : (rows ++ [r]) !! length rows = Some r).
      { by rewrite lookup_app_r, Nat.sub_diag. }
      destruct (dict_get k (by_normalized (load_loop rows)))
        as [existing|] eqn:E.
      * destruct IH as [i [(r0 & Hi & Hg) Hmin]].
        destruct (len (w_path w0) <? len (w_path existing))%nat eqn:Hlt.
        -- apply Nat.ltb_lt in Hlt. exists (length rows). split; [by eauto|].
           intros j r' w' [[Hj Hr']|[-> ->]]%lookup_snoc_inv Hg'.
           ++ destruct (Hmin j r' w' Hr' Hg'). lia.
           ++ destruct Hg' as [Hg' _]. rewrite Hw0 in Hg'.
              injection Hg' as <-. lia.
        -- apply Nat.ltb_ge in Hlt. exists i. split.
           ++ exists r0. split; [|done].
              rewrite lookup_app_l; [done|by eapply lookup_lt_Some].
           ++ intros j r' w' [[Hj Hr']|[-> ->]]%lookup_snoc_inv Hg'.
              ** by eapply Hmin.
              ** destruct Hg' as [Hg' _]. rewrite Hw0 in Hg'.
                 injection Hg' as <-. apply lookup_lt_Some in Hi. lia.
      * exists (length rows). split; [by eauto|].
        intros j r' w' [[Hj Hr']|[-> ->]]%lookup_snoc_inv Hg'.
        -- by destruct (IH j r' w' Hr').
        -- destruct Hg' as [Hg' _]. rewrite Hw0 in Hg'.
           injection Hg' as <-. lia.
    + assert (Hout : ∀ w', ¬ in_group k r w').
      { intros w' [Hw' Hk']. rewrite Hw0 in Hw'. by injection Hw' as <-. }
      destruct (dict_get k (by_normalized (load_loop rows))) as [w|].
      * destruct IH as [i IH]. exists i.
        by apply first_shortest_at_snoc_other.
      * intros j r' w' [[_ Hj]|[_ ->]]%lookup_snoc_inv; [by eapply IH|done].
  - rewrite load_step_skip by done.
    assert (Hout : ∀ w', ¬ in_group k r w').
    { intros w' [Hw' _]. by rewrite Hw0 in Hw'. }
    destruct (dict_get k (by_normalized (load_loop rows))) as [w|].
    + destruct IH as [i IH]. exists i. by apply first_shortest_at_snoc_other.
    + intros j r' w' [[_ Hj]|[_ ->]]%lookup_snoc_inv; [by eapply IH|done].
Qed.

(** C1. For every sequence of rows and every normalized key, the record
    kept in [by_normalized] for the key is the record of a row of that
    key whose raw path has minimal length in the group, and among the
    rows of that minimal length it is the first in row order; a key
    has no record only when no kept row has that key. *)
Theorem canonical_is_first_shortest (rows : list Row) (k : string) :
  match dict_get k (by_normalized (load_loop rows)) with
  | Some w =>
      ∃ i r, rows !! i = Some r ∧ workspace_data_of r = Some w ∧
             normalize (w_path w) = k ∧
        ∀ j r' w', rows !! j = Some r' → workspace_data_of r' = Some w' →
          normalize (w_path w') = k →
          len (w_path w) ≤ len (w_path w') ∧
          (len (w_path w') = len (w_path w) → i ≤ j)
  | None =>
      ∀ j r w, rows !! j = Some r → workspace_data_of r = Some w →
               normalize (w_path w) ≠ k
  end.
Proof.
  pose proof (by_normalized_spec rows k) as H.
  destruct (dict_get k (by_normalized (load_loop rows))) as [w|].
  - destruct H as [i [(r & Hi & Hw & Hk) Hmin]].
    exists i, r. split_and!; [done..|].
    intros j r' w' Hj Hw' Hk'. by apply (Hmin j r' w').
  - intros j r w Hj Hw Hk. by apply (H j r w).
Qed.

End Canonical.

(** ** Rows without a usable path *)

Section EmptyKeys.
Variable path_name : string → string.
Variable zed_db_path : string.

Lemma empty_key_is_skipped r :
  normalize_val (paths r) = "" → workspace_data_of r = None.
Proof.
  unfold workspace_data_of, normalize_val.
  destruct (paths r) as [| |p|]; try done.
  intros ->%normalize_empty_inv. done.
Qed.

Lemma load_loop_all_skipped rows :
  Forall (λ r, workspace_data_of r = None) rows → load_loop rows = load_init.
Proof.
  induction rows as [|r rows IH] using rev_ind; [done|].
  intros H. apply Forall_app in H as [Hrows Hr].
  apply Forall_inv in Hr.
  rewrite load_loop_snoc, load_step_skip by done. auto.
Qed.

(** C4 (as the code has it). When every row's path normalizes to the
    empty key, every row is skipped by the guard of the loop: both
    dicts stay empty, the fallback to [by_workspace_id] yields no
    record, the result list is empty and [query] answers with the
    single "nothing found" record. *)
Theorem empty_keys_give_no_records (rows : list Row) (q : string) :
  Forall (λ r, normalize_val (paths r) = "") rows →
  by_normalized (load_loop rows) = [] ∧
  by_workspace_id (load_loop rows) = [] ∧
  _load_workspaces path_name (DbRows rows) = [] ∧
  query path_name zed_db_path (DbRows rows) q = [not_found zed_db_path].
Proof.
  intros Hrows.
  assert (E : load_loop rows = load_init).
  { apply load_loop_all_skipped. eapply Forall_impl; [exact Hrows|].
    apply empty_key_is_skipped. }
  assert (L : _load_workspaces path_name (DbRows rows) = []).
  { cbn. by rewrite E. }
  split_and!; [by rewrite E..|done|].
  unfold query. by rewrite L.
Qed.

End EmptyKeys.

(** ** The last pass of [query] *)

Section UniquePass.

Lemma unique_pass_snoc_raw rs r :
  foldl unique_step ([], ∅) (rs ++ [r]) =
  unique_step (foldl unique_step ([], ∅) rs) r.
Proof. apply foldl_snoc. Qed.

(** [seen] holds the keys of the entries read so far, which are also
    the keys of the entries in [unique]. *)
Lemma unique_pass_seen rs :
  let st := foldl unique_step ([], ∅) rs in
  (∀ key, key ∈ st.2 ↔ key ∈ entry_key <$> rs) ∧
  (∀ key, key ∈ st.2 ↔ key ∈ entry_key <$> st.1) ∧
  st.1 `sublist_of` rs.
Proof.
  induction rs as [|r rs IH] using rev_ind.
  - cbn. split_and!; [by intros key; rewrite elem_of_empty, elem_of_nil..|done].
  - rewrite unique_pass_snoc_raw. cbn zeta in *.
    destruct IH as (Hseen & Hemit & Hsub). unfold unique_step.
    destruct (decide (entry_key r ∈ _)) as [Hin|Hout].
    + split_and!.
      * intros key. rewrite fmap_app, elem_of_app, <-Hseen. cbn.
        rewrite list_elem_of_singleton. split; [tauto|].
        by intros [?| ->].
      * done.
      * by apply sublist_inserts_r.
    + cbn [fst snd]. split_and!.
      * intros key. rewrite fmap_app, elem_of_app, <-Hseen. cbn.
        rewrite list_elem_of_singleton, elem_of_union, elem_of_singleton. tauto.
      * intros key. rewrite fmap_app, elem_of_app, <-Hemit. cbn.
        rewrite list_elem_of_singleton, elem_of_union, elem_of_singleton. tauto.
      * by apply sublist_app.
Qed.

(** C8 (as the code has it). The last pass drops exactly the entries
    whose pair (title, subtitle), each stripped of surrounding white
    space and lower-cased, is the pair of an entry already emitted; the
    entries kept stay in first-seen order. *)
Theorem unique_pass_drops_seen_keys (rs : list entry) (r : entry) :
  unique_pass [] = [] ∧
  unique_pass (rs ++ [r]) =
    (if decide (entry_key r ∈ entry_key <$> unique_pass rs)
     then unique_pass rs else unique_pass rs ++ [r]) ∧
  (entry_key r ∈ entry_key <$> unique_pass rs ↔
   entry_key r ∈ entry_key <$> rs) ∧
  unique_pass rs `sublist_of` rs ∧
  entry_key r = (lower (strip (Title r)), lower (strip (SubTitle r))).
Proof.
  destruct (unique_pass_seen rs) as (Hseen & Hemit & Hsub).
  split_and!; [done| |by rewrite <-Hemit, Hseen|done|done].
  unfold unique_pass. rewrite unique_pass_snoc_raw. unfold unique_step at 1.
  destruct (decide (entry_key r ∈ _)) as [Hin|Hout].
  - by rewrite decide_True by by apply Hemit.
  - by rewrite decide_False by (by rewrite <-Hemit).
Qed.

End UniquePass.

(** ** Presentation *)

Section Presentation.
Variable path_name : string → string.
Variable zed_db_path : string.

Lemma unique_pass_singleton r : unique_pass [r] = [r].
Proof.
  unfold unique_pass. cbn [foldl]. unfold unique_step. cbn [fst snd].
  by rewrite decide_False by apply not_elem_of_empty.
Qed.

(** C2 (as the code has it). After an exception [_load_workspaces]
    returns one record whose path is the error text, and [query] treats
    it as any other record: it goes through the substring filter, so
    the answer is the one presentation record when the stripped,
    lower-cased query is empty or occurs in the lower-cased error text,
    and the empty list otherwise; that record has the error text as
    subtitle and carries the [open_workspace] action. *)
Theorem error_record_is_filtered_and_launchable (e q : string) :
  let w := error_workspace e in
  let q' := strip (lower q) in
  _load_workspaces path_name (DbError e) = [w] ∧
  w_path w = "<Error reading DB: " +:+ e +:+ ">" ∧
  query path_name zed_db_path (DbError e) q =
    (if bool_decide (q' = "") || contains q' (lower (w_path w))
     then [present path_name w] else []) ∧
  SubTitle (present path_name w) = w_path w ∧
  JsonRPCAction (present path_name w) =
    Some {| method := "open_workspace";
            parameters :=
              [PStr (w_path w); PBool false; PNone; PNone; PNone] |}.
Proof.
  cbn zeta. split_and!; [done..| |done|done].
  unfold query. cbn [_load_workspaces]. unfold filter_by_query.
  case_bool_decide as Hq; cbn [orb].
  - cbn [fmap list_fmap]. apply unique_pass_singleton.
  - cbn [filter list_filter].
    destruct (decide (contains _ _ = true)) as [Hc|Hc].
    + rewrite Hc. cbn [fmap list_fmap]. apply unique_pass_singleton.
    + apply not_true_is_false in Hc. by rewrite Hc.
Qed.

End Presentation.

(** ** [context_menu] *)

Section ContextMenu.

(** C10. [context_menu] indexes [data[0]] unconditionally, so on the
    empty list it raises [IndexError] and returns nothing. On every list
    of length at least one whose first element is a path string, which
    is the type [is_wsl_path] declares and what [query] puts first in
    every [ContextData], it returns exactly one action descriptor. The
    last two parts say what the code does outside that type: a truthy
    second element also gives one descriptor, and any other first
    element makes the call [path.startswith] raise [AttributeError]. *)
Theorem context_menu_cases :
  context_menu [] = Raises IndexError ∧
  (∀ p rest, ∃ m, context_menu (PStr p :: rest) = Returns [m]) ∧
  (∀ v is_ssh rest, truthy is_ssh = true →
     ∃ m, context_menu (v :: is_ssh :: rest) = Returns [m]) ∧
  (∀ v rest, (∀ p, v ≠ PStr p) →
     truthy (default (PBool false) (rest !! 0%nat)) = false →
     context_menu (v :: rest) = Raises AttributeError).
Proof.
  split_and!.
  - done.
  - intros p rest. unfold context_menu.
    change ((PStr p :: rest) !! 0%nat) with (Some (PStr p)).
    destruct (truthy _); eauto.
  - intros v is_ssh rest Ht. unfold context_menu.
    change ((v :: is_ssh :: rest) !! 0%nat) with (Some v).
    change (default (PBool false) ((v :: is_ssh :: rest) !! 1%nat))
      with is_ssh.
    rewrite Ht. eauto.
  - intros v rest Hv Ht. unfold context_menu.
    change ((v :: rest) !! 0%nat) with (Some v).
    change ((v :: rest) !! 1%nat) with (rest !! 0%nat). rewrite Ht.
    destruct v as [| | |p]; try done. by destruct (Hv p).
Qed.

End ContextMenu.

(** ** The scenarios of the specification, run on the model *)

Section Scenarios.

Example normalize_separators_and_case :
  normalize "A\B\C/" = normalize "a/b/c" ∧ normalize "a//b///c" = "a/b/c".
Proof. by vm_compute. Qed.

Example local_workspace_title :
  query windows_name "db.sqlite" (DbRows [local_row 1 "C:\Users\x\App"]) "" =
  [present windows_name
     (workspace_data (local_row 1 "C:\Users\x\App") "C:\Users\x\App")] ∧
  title_of windows_name
    (workspace_data (local_row 1 "C:\Users\x\App") "C:\Users\x\App") = "App".
Proof. by vm_compute. Qed.

Example wsl_workspace_title :
  Title <$> query windows_name "db.sqlite"
              (DbRows [local_row 2 "/home/x/app"]) "" = ["App (WSL)"].
Proof. by vm_compute. Qed.

Example ssh_workspace_uri :
  build_ssh_uri "box1" "/srv/app" (Some "dev") (Some 2222%Z) =
    "ssh://dev@box1:2222/srv/app" ∧
  Title <$> query windows_name "db.sqlite"
              (DbRows [ssh_row 3 "/srv/app" "box1" (Some "dev") (Some 2222%Z)])
              "" = ["App (SSH: box1)"].
Proof. by vm_compute. Qed.

Example shorter_path_is_kept :
  SubTitle <$> query windows_name "db.sqlite"
    (DbRows [local_row 1 "/a/b/proj/"; local_row 2 "/a/b/proj"]) "" =
  ["/a/b/proj"].
Proof. by vm_compute. Qed.

Example equal_lengths_keep_the_first :
  SubTitle <$> query windows_name "db.sqlite"
    (DbRows [local_row 1 "/a/B"; local_row 2 "/a/b"; local_row 3 "/A/b"]) "" =
  ["/a/B"].
Proof. by vm_compute. Qed.

Example filter_is_case_insensitive :
  SubTitle <$> query windows_name "db.sqlite"
    (DbRows [local_row 1 "/A/B/Project"; local_row 2 "/x/other"]) " Proj " =
  ["/A/B/Project"].
Proof. by vm_compute. Qed.

Example missing_database :
  query windows_name "db.sqlite" DbMissing "" = [not_found "db.sqlite"].
Proof. done. Qed.

End Scenarios.

(** ** Instances and counterexamples *)

Section Instances.

(** The SSH row of scenario 3 is classified SSH. *)
Lemma ssh_iff_kind_and_host_present_witness :
  let r := ssh_row 3 "/srv/app" "box1" (Some "dev") (Some 2222%Z) in
  workspace_data_of r = Some (workspace_data r "/srv/app") ∧
  (connection_type_of (workspace_data r "/srv/app") = SSH ↔
   rc_kind r = Some "ssh" ∧ rc_host r ≠ None).
Proof.
  split; [by vm_compute|].
  apply ssh_iff_kind_and_host_present. by vm_compute.
Defined.

(** A row with kind ["ssh"] and the empty string as host is SSH. *)
Lemma empty_host_is_ssh :
  rc_host (ssh_row 3 "/srv/app" "" None None) = Some "" ∧
  connection_type_of <$> workspace_data_of (ssh_row 3 "/srv/app" "" None None)
    = Some SSH.
Proof. by vm_compute. Qed.

Lemma ssh_takes_priority_over_wsl_witness :
  let r := ssh_row 4 "/home/u/x" "h" None None in
  (∃ w, workspace_data_of r = Some w ∧
        connection_type_of w = SSH ∧ w_is_ssh w = true ∧ w_is_wsl w = false) ∧
  (∀ r' w', workspace_data_of r' = Some w' →
     paths r' = SText (w_path w') ∧
     w_is_wsl w' = negb (w_is_ssh w') && is_wsl_path (w_path w') ∧
     is_wsl_path (w_path w') =
       startswith "/home/" (w_path w') || startswith "/mnt/" (w_path w')).
Proof.
  apply (ssh_takes_priority_over_wsl
           (ssh_row 4 "/home/u/x" "h" None None) "h" "/home/u/x");
    by vm_compute.
Defined.

Lemma empty_keys_give_no_records_witness :
  let rows := [local_row 1 ""; local_row 2 ""] in
  Forall (λ r, normalize_val (paths r) = "") rows ∧
  by_normalized (load_loop rows) = [] ∧
  by_workspace_id (load_loop rows) = [] ∧
  _load_workspaces windows_name (DbRows rows) = [] ∧
  query windows_name "db.sqlite" (DbRows rows) "" = [not_found "db.sqlite"].
Proof.
  assert (H : Forall (λ r, normalize_val (paths r) = "")
                [local_row 1 ""; local_row 2 ""]).
  { repeat constructor. }
  split; [exact H|].
  exact (empty_keys_give_no_records windows_name "db.sqlite" _ "" H).
Defined.

(** Rows whose paths are empty strings: the fallback dict is as empty
    as the first one, and no record is returned. *)
Lemma empty_paths_give_empty_result :
  normalize_val (paths (local_row 1 "")) = "" ∧
  by_workspace_id (load_loop [local_row 1 ""]) = [] ∧
  load_results (load_loop [local_row 1 ""]) = [] ∧
  _load_workspaces windows_name (DbRows [local_row 1 ""]) = [].
Proof. by vm_compute. Qed.

(** [capitalize] lower-cases what follows the first character: the
    segment ["myProj"] is shown as ["Myproj"], not ["MyProj"]. *)
Lemma title_lowercases_rest :
  workspace_data_of (local_row 1 "/a/myProj") =
    Some (workspace_data (local_row 1 "/a/myProj") "/a/myProj") ∧
  windows_name "/a/myProj" = "myProj" ∧
  title_of windows_name
    (workspace_data (local_row 1 "/a/myProj") "/a/myProj") = "Myproj" ∧
  "Myproj" ≠ String (upper_char "m") "yProj".
Proof. by vm_compute. Qed.

(** After an exception, a query that does not occur in the error text
    gets the empty list, and the empty query gets a record with a
    launch action. *)
Lemma error_record_counterexample :
  query windows_name "db.sqlite" (DbError "locked") "zed" = [] ∧
  JsonRPCAction <$> query windows_name "db.sqlite" (DbError "locked") "" =
    [Some {| method := "open_workspace";
             parameters := [PStr "<Error reading DB: locked>";
                            PBool false; PNone; PNone; PNone] |}].
Proof. by vm_compute. Qed.

(** Two entries whose lower-cased pairs differ by a trailing space:
    the second one is dropped. *)
Lemma lowercase_pairs_differ_but_one_is_dropped :
  let e1 := present windows_name
              (workspace_data (local_row 1 "/a/app") "/a/app") in
  let e2 := present windows_name
              (workspace_data (local_row 2 "/a/app ") "/a/app ") in
  present windows_name <$>
    _load_workspaces windows_name
      (DbRows [local_row 1 "/a/app"; local_row 2 "/a/app "]) = [e1; e2] ∧
  (lower (Title e1), lower (SubTitle e1)) ≠
    (lower (Title e2), lower (SubTitle e2)) ∧
  unique_pass [e1; e2] = [e1].
Proof. by vm_compute. Qed.

End Instances.


(** * Further properties *)

(** ** The loop of [normalize] and the canonical form *)

Section NormalForm.

Lemma squeeze_slashes_cons2 (c c' : ascii) (r : string) :
  squeeze_slashes (String c (String c' r)) =
  if bool_decide (c = slash) && bool_decide (c' = slash)
  then squeeze_slashes (String c' r)
  else String c (squeeze_slashes (String c' r)).
Proof. done. Qed.

Lemma replace_dslash_head c r : ∃ t, replace_dslash (String c r) = String c t.
Proof.
  destruct r as [|c' r]; [by exists ""|]. rewrite replace_dslash_cons2.
  destruct (bool_decide (c = slash) && bool_decide (c' = slash)) eqn:E; [|eauto].
  apply andb_true_iff in E as [->%bool_decide_eq_true _]. eauto.
Qed.

(** One round of the loop does not change what is left after all runs
    of slashes are collapsed. *)
Lemma squeeze_replace_dslash s :
  squeeze_slashes (replace_dslash s) = squeeze_slashes s.
Proof.
  induction s as [|c|c c' r IH1 IH2] using string_ind2; [done..|].
  rewrite replace_dslash_cons2, squeeze_slashes_cons2.
  destruct (bool_decide (c = slash) && bool_decide (c' = slash)) eqn:E.
  - apply andb_true_iff in E as [_ ->%bool_decide_eq_true].
    destruct r as [|c'' r]; [done|].
    rewrite squeeze_slashes_cons2, <-IH1.
    destruct (replace_dslash_head c'' r) as [t ->].
    by rewrite squeeze_slashes_cons2.
  - destruct (replace_dslash_head c' r) as [t Ht]. rewrite Ht in *.
    by rewrite squeeze_slashes_cons2, E, IH2.
Qed.

Lemma squeeze_slashes_fixed s :
  contains "//" s = false → squeeze_slashes s = s.
Proof.
  induction s as [|c|c c' r _ IH] using string_ind2; [done..|].
  rewrite contains_dslash_cons2, squeeze_slashes_cons2.
  intros [-> H]%orb_false_iff. by rewrite IH.
Qed.

Lemma collapse_slashes_squeeze s : collapse_slashes s = squeeze_slashes s.
Proof.
  funelim (collapse_slashes s).
  - by rewrite <-squeeze_replace_dslash.
  - symmetry. by apply squeeze_slashes_fixed, not_true_is_false.
Qed.

(** X1. The loop [while "//" in s: s = s.replace("//", "/")] ends, and
    it ends with the string in which every run of slashes is one slash;
    that string has no double slash left. *)
Theorem collapse_slashes_is_squeeze (s : string) :
  collapse_slashes s = squeeze_slashes s ∧
  contains "//" (squeeze_slashes s) = false.
Proof.
  split; [apply collapse_slashes_squeeze|].
  rewrite <-collapse_slashes_squeeze. apply collapse_slashes_no_dslash.
Qed.

(** X2. The key is in canonical form: it has no backslash and no double
    slash, it ends in a slash only when it is the string ["/"], it is
    its own lower-casing, and it is empty only for the empty path. *)
Theorem normalize_canonical_form (p : string) :
  all_chars (λ c, negb (bool_decide (c = backslash))) (normalize p) = true ∧
  contains "//" (normalize p) = false ∧
  (ends_with_slash (normalize p) = true → normalize p = "/") ∧
  lower (normalize p) = normalize p ∧
  (normalize p = "" ↔ p = "").
Proof.
  split_and!.
  - apply normalize_no_backslash.
  - apply normalize_no_dslash.
  - intros He. pose proof (normalize_no_trailing_slash p) as H.
    rewrite He, andb_true_r in H. apply Nat.ltb_ge in H.
    destruct (normalize p) as [|c [|c' r]]; [done| |simpl in H; lia].
    cbn in He. by apply bool_decide_eq_true in He as ->.
  - unfold normalize. apply lower_idemp.
  - split; [apply normalize_empty_inv|by intros ->].
Qed.

End NormalForm.

(** ** Paths with the same key *)

Section SameKey.

Lemma lower_char_slash : lower_char slash = slash.
Proof. done. Qed.

Lemma lower_replace_backslash s :
  replace_char backslash slash (lower s) =
  lower (replace_char backslash slash s).
Proof.
  induction s as [|c r IH]; [done|]. cbn [lower replace_char]. rewrite IH.
  rewrite (bool_decide_ext _ _ (lower_char_eq_backslash c)).
  by destruct (bool_decide (c = backslash)).
Qed.

Lemma lower_squeeze_slashes s :
  squeeze_slashes (lower s) = lower (squeeze_slashes s).
Proof.
  induction s as [|c|c c' r _ IH] using string_ind2; [done..|].
  cbn [lower] in *. rewrite !squeeze_slashes_cons2, IH.
  rewrite !(bool_decide_ext _ _ (lower_char_eq_slash _)).
  by destruct (_ && _).
Qed.

Lemma lower_rstrip_slash s : rstrip_slash (lower s) = lower (rstrip_slash s).
Proof.
  unfold rstrip_slash. induction s as [|c r IH]; [done|].
  cbn [lower rstrip_by]. rewrite IH.
  destruct (rstrip_by _ r) as [|c' r']; cbn [lower]; [|done].
  rewrite (bool_decide_ext _ _ (lower_char_eq_slash c)).
  by destruct (bool_decide (c = slash)).
Qed.

Lemma normalize_lower p : normalize (lower p) = normalize p.
Proof.
  unfold normalize.
  rewrite lower_replace_backslash, !collapse_slashes_squeeze.
  rewrite lower_squeeze_slashes, lower_length, lower_ends_with_slash.
  destruct (_ && _); by rewrite ?lower_rstrip_slash, lower_idemp.
Qed.

Lemma normalize_replace_backslash p :
  normalize (replace_char backslash slash p) = normalize p.
Proof.
  unfold normalize. f_equal.
  by rewrite (replace_char_absent _ _ _
                (replace_char_all _ _ p backslash_not_slash)).
Qed.

(** X3. Two paths that differ only in the case of their letters and in
    the direction of their separators have the same key. *)
Theorem normalize_ignores_case_and_separators (p q : string) :
  lower (replace_char backslash slash p) =
  lower (replace_char backslash slash q) →
  normalize p = normalize q.
Proof.
  intros H.
  rewrite <-(normalize_replace_backslash p), <-(normalize_replace_backslash q).
  rewrite <-(normalize_lower (replace_char _ _ p)).
  rewrite <-(normalize_lower (replace_char _ _ q)).
  by rewrite H.
Qed.

Lemma normalize_ignores_case_and_separators_witness :
  lower (replace_char backslash slash "C:\Users\X\App") =
  lower (replace_char backslash slash "c:/users/x/app") ∧
  normalize "C:\Users\X\App" = normalize "c:/users/x/app".
Proof.
  split; [by vm_compute|].
  apply normalize_ignores_case_and_separators. by vm_compute.
Defined.

Lemma ends_with_slash_cons c c' r :
  ends_with_slash (String c (String c' r)) = ends_with_slash (String c' r).
Proof. done. Qed.

Lemma squeeze_slashes_nonempty s : s ≠ "" → squeeze_slashes s ≠ "".
Proof.
  induction s as [|c|c c' r _ IH] using string_ind2; [done..|]. intros _.
  rewrite squeeze_slashes_cons2. destruct (_ && _); [by apply IH|done].
Qed.

Lemma squeeze_slashes_ends s :
  ends_with_slash (squeeze_slashes s) = ends_with_slash s.
Proof.
  induction s as [|c|c c' r _ IH] using string_ind2; [done..|].
  rewrite squeeze_slashes_cons2, ends_with_slash_cons, <-IH.
  destruct (_ && _); [done|].
  pose proof (squeeze_slashes_nonempty (String c' r)) as Hne.
  destruct (squeeze_slashes (String c' r)) as [|d t]; [by destruct Hne|].
  by rewrite ends_with_slash_cons.
Qed.

Lemma squeeze_slashes_snoc_slash s :
  squeeze_slashes (s +:+ "/") =
  if ends_with_slash s then squeeze_slashes s else squeeze_slashes s +:+ "/".
Proof.
  induction s as [|c|c c' r _ IH] using string_ind2.
  - done.
  - change (String c "" +:+ "/") with (String c (String slash "")).
    rewrite squeeze_slashes_cons2. cbn [ends_with_slash].
    rewrite (bool_decide_eq_true_2 (slash = slash)) by done.
    rewrite andb_true_r. by case_bool_decide; subst.
  - change (String c (String c' r) +:+ "/")
      with (String c (String c' r +:+ "/")).
    change (String c' r +:+ "/") with (String c' (r +:+ "/")) at 1.
    rewrite squeeze_slashes_cons2.
    change (String c' (r +:+ "/")) with (String c' r +:+ "/").
    rewrite IH, ends_with_slash_cons, squeeze_slashes_cons2.
    by destruct (_ && _), (ends_with_slash (String c' r)).
Qed.

Lemma rstrip_slash_snoc_slash s : rstrip_slash (s +:+ "/") = rstrip_slash s.
Proof.
  unfold rstrip_slash. induction s as [|c r IH]; [done|].
  change (String c r +:+ "/") with (String c (r +:+ "/")).
  cbn [rstrip_by]. by rewrite IH.
Qed.

Lemma rstrip_slash_id s : ends_with_slash s = false → rstrip_slash s = s.
Proof.
  unfold rstrip_slash.
  induction s as [|c|c c' r _ IH] using string_ind2; [done| |].
  - cbn. by intros ->.
  - rewrite ends_with_slash_cons. intros H. specialize (IH H).
    change (rstrip_by ?p (String c ?t))
      with (match rstrip_by p t with
            | "" => if p c then "" else String c ""
            | r' => String c r'
            end).
    by rewrite IH.
Qed.

(** X4. A slash added at the end of a non-empty path does not change
    the key. *)
Theorem normalize_ignores_trailing_slash (p : string) :
  p ≠ "" → normalize (p +:+ "/") = normalize p.
Proof.
  intros Hp. unfold normalize. f_equal.
  assert (Hr : replace_char backslash slash (p +:+ "/") =
               replace_char backslash slash p +:+ "/").
  { clear Hp. induction p as [|c r IH]; [done|].
    change (String c r +:+ "/") with (String c (r +:+ "/")).
    cbn [replace_char]. by rewrite IH. }
  rewrite Hr, !collapse_slashes_squeeze, squeeze_slashes_snoc_slash.
  set (s := replace_char backslash slash p).
  assert (Hs : squeeze_slashes s ≠ "").
  { apply squeeze_slashes_nonempty. unfold s. by destruct p. }
  rewrite <-(squeeze_slashes_ends s).
  destruct (ends_with_slash (squeeze_slashes s)) eqn:He.
  { cbn iota. by rewrite He. }
  rewrite andb_false_r.
  assert (Hl : (1 <? len (squeeze_slashes s +:+ "/"))%nat = true).
  { apply Nat.ltb_lt. destruct (squeeze_slashes s) as [|c [|c' t]];
      [done|simpl; lia..]. }
  assert (Hend : ends_with_slash (squeeze_slashes s +:+ "/") = true).
  { clear Hl He. induction (squeeze_slashes s) as [|c|c c' r _ IH]
      using string_ind2; [done|done|].
    change (String c (String c' r) +:+ "/")
      with (String c (String c' (r +:+ "/"))).
    rewrite ends_with_slash_cons. by apply IH. }
  rewrite Hl, Hend. cbn [andb].
  by rewrite rstrip_slash_snoc_slash, rstrip_slash_id.
Qed.

Lemma normalize_ignores_trailing_slash_witness :
  "/a/b/proj" ≠ "" ∧ normalize ("/a/b/proj" +:+ "/") = normalize "/a/b/proj".
Proof.
  split; [done|]. by apply normalize_ignores_trailing_slash.
Defined.

End SameKey.

(** ** The records that [_load_workspaces] keeps *)

Section KeptRecords.

Lemma dict_get_elem_of {K V} `{EqDecision K} (k : K) (v : V) d :
  dict_get k d = Some v → (k, v) ∈ d.
Proof.
  induction d as [|[k' v'] d IH]; [done|]. cbn.
  destruct (decide (k = k')) as [->|].
  - intros [= ->]. apply list_elem_of_here.
  - intros H. apply list_elem_of_further. auto.
Qed.

Lemma dict_elem_of_get {K V} `{EqDecision K} (k : K) (v : V) d :
  NoDup d.*1 → (k, v) ∈ d → dict_get k d = Some v.
Proof.
  induction d as [|[k' v'] d IH]; [by intros _ ?%elem_of_nil|].
  cbn [fmap list_fmap fst]. intros [Hk' Hd]%NoDup_cons Hin.
  apply elem_of_cons in Hin as [[= <- <-]|Hin]; cbn.
  - by rewrite decide_True.
  - rewrite decide_False; [auto|]. intros <-. apply Hk'.
    apply list_elem_of_fmap. by exists (k, v).
Qed.

Lemma dict_set_keys {K V} `{EqDecision K} (k : K) (v : V) d :
  (dict_set k v d).*1 = if decide (k ∈ d.*1) then d.*1 else d.*1 ++ [k].
Proof.
  induction d as [|[k' v'] d IH]; cbn [dict_set fmap list_fmap fst].
  - by rewrite decide_False by apply not_elem_of_nil.
  - destruct (decide (k = k')) as [<-|Hne]; cbn [fmap list_fmap fst].
    + by rewrite decide_True by apply list_elem_of_here.
    + change (list_fmap _ _ fst ?l) with (l.*1). rewrite IH.
      destruct (decide (k ∈ d.*1)) as [Hin|Hout].
      * by rewrite decide_True by by apply list_elem_of_further.
      * rewrite decide_False; [done|].
        by intros [?|?]%elem_of_cons.
Qed.

Lemma dict_set_NoDup {K V} `{EqDecision K} (k : K) (v : V) d :
  NoDup d.*1 → NoDup (dict_set k v d).*1.
Proof.
  intros Hd. rewrite dict_set_keys. destruct (decide (k ∈ d.*1)); [done|].
  apply NoDup_app. split_and!; [done| |apply NoDup_singleton].
  by intros k' Hk' ->%list_elem_of_singleton.
Qed.

Lemma load_loop_NoDup rows :
  NoDup (by_normalized (load_loop rows)).*1 ∧
  NoDup (by_workspace_id (load_loop rows)).*1.
Proof.
  induction rows as [|r rows [IHn IHw]] using rev_ind.
  - split; apply NoDup_nil_2.
  - rewrite load_loop_snoc. unfold load_step.
    destruct (workspace_data_of r) as [w|]; [|done].
    cbn [by_normalized by_workspace_id]. split.
    + destruct (dict_get _ (by_normalized _)); [destruct (_ <? _)%nat|];
        auto using dict_set_NoDup.
    + destruct (dict_get _ (by_workspace_id _)); [destruct (_ <? _)%nat|];
        auto using dict_set_NoDup.
Qed.

(** Two representatives of one group are the same record. *)
Lemma first_shortest_by_unique {K} (kf : workspace → K) rows k w1 i1 w2 i2 :
  first_shortest_by kf rows k w1 i1 → first_shortest_by kf rows k w2 i2 →
  i1 = i2 ∧ w1 = w2.
Proof.
  intros [(r1 & Hi1 & Hw1 & Hk1) Hmin1] [(r2 & Hi2 & Hw2 & Hk2) Hmin2].
  destruct (Hmin1 i2 r2 w2 Hi2 Hw2 Hk2) as [Hle1 Hfst1].
  destruct (Hmin2 i1 r1 w1 Hi1 Hw1 Hk1) as [Hle2 Hfst2].
  assert (i1 = i2) as -> by lia. split; [done|]. congruence.
Qed.

Lemma first_shortest_at_by rows k w i :
  first_shortest_at rows k w i ↔ first_shortest_by (normalize ∘ w_path) rows k w i.
Proof.
  unfold first_shortest_at, first_shortest_by, in_group, compose.
  split; intros [(r & Hi & Hw & Hk) Hmin]; (split; [by eauto|]).
  - intros j r' w' Hj Hw' Hk'. by apply (Hmin j r' w').
  - intros j r' w' Hj [Hw' Hk']. by apply (Hmin j r' w').
Qed.

(** X5. The result list before sorting holds exactly the
    representatives: a record is in it if and only if it is the record
    of the first row of minimal raw-path length among the kept rows with
    its normalized key. No two of its records have the same key. *)
Theorem load_results_are_the_representatives (rows : list Row) :
  (∀ w, w ∈ load_results (load_loop rows) ↔
        ∃ i, first_shortest_at rows (normalize (w_path w)) w i) ∧
  NoDup (normalize ∘ w_path <$> load_results (load_loop rows)).
Proof.
  rewrite load_results_by_normalized. unfold dict_values.
  destruct (load_loop_NoDup rows) as [Hnd _].
  assert (Hkey : ∀ k w, (k, w) ∈ by_normalized (load_loop rows) →
                 ∃ i, first_shortest_at rows k w i).
  { intros k w Hin%dict_elem_of_get; [|done].
    pose proof (by_normalized_spec rows k) as H. by rewrite Hin in H. }
  split.
  - intros w. split.
    + intros ([k w'] & -> & Hin)%list_elem_of_fmap. cbn.
      destruct (Hkey _ _ Hin) as [i Hi]. exists i.
      destruct Hi as [(r & Hr & Hw & Hk) Hmin]. rewrite Hk.
      split; [by exists r|done].
    + intros [i Hi].
      pose proof (by_normalized_spec rows (normalize (w_path w))) as H.
      destruct (dict_get _ _) as [w'|] eqn:E.
      * destruct H as [i' Hi']. apply first_shortest_at_by in Hi, Hi'.
        destruct (first_shortest_by_unique _ _ _ _ _ _ _ Hi Hi') as [_ ->].
        apply dict_get_elem_of in E. apply list_elem_of_fmap.
        by exists (normalize (w_path w'), w').
      * destruct Hi as [(r & Hr & Hg) _]. by destruct (H i r w Hr).
  - assert (Heq : normalize ∘ w_path <$> (by_normalized (load_loop rows)).*2
                  = (by_normalized (load_loop rows)).*1); [|by rewrite Heq].
    clear Hnd. induction (by_normalized (load_loop rows)) as [|[k w] d IH];
      [done|].
    cbn [fmap list_fmap fst snd compose]. f_equal.
    + destruct (Hkey k w) as [i [(r & _ & _ & Hk) _]];
        [apply list_elem_of_here|done].
    + apply IH. intros k' w' Hin. apply Hkey. by apply list_elem_of_further.
Qed.

End KeptRecords.

(** ** The fallback dict *)

Section ByWorkspaceId.

Lemma load_step_by_workspace_id st r w k :
  workspace_data_of r = Some w →
  dict_get k (by_workspace_id (load_step st r)) =
  if decide (w_id w = k) then
    match dict_get k (by_workspace_id st) with
    | None => Some w
    | Some existing =>
        if (len (w_path w) <? len (w_path existing))%nat
        then Some w else Some existing
    end
  else dict_get k (by_workspace_id st).
Proof.
  intros Hw. unfold load_step. rewrite Hw. cbn [by_workspace_id].
  destruct (decide (w_id w = k)) as [<-|Hne].
  - destruct (dict_get _ (by_workspace_id st)) as [existing|] eqn:E.
    + destruct (_ <? _)%nat; [apply dict_get_set_eq|done].
    + apply dict_get_set_eq.
  - destruct (dict_get (w_id w) (by_workspace_id st)) as [existing|].
    + destruct (_ <? _)%nat; [by apply dict_get_set_ne|done].
    + by apply dict_get_set_ne.
Qed.

(** The rule "first seen, replaced only by a strictly shorter path",
    for any dict of the loop that is filled under the key [kf]. *)
Lemma keep_first_shortest {K} `{EqDecision K}
    (kf : workspace → K) (proj : load_state → list (K * workspace)) :
  proj load_init = [] →
  (∀ st r, workspace_data_of r = None → proj (load_step st r) = proj st) →
  (∀ st r w k, workspace_data_of r = Some w →
     dict_get k (proj (load_step st r)) =
     if decide (kf w = k) then
       match dict_get k (proj st) with
       | None => Some w
       | Some existing =>
           if (len (w_path w) <? len (w_path existing))%nat
           then Some w else Some existing
       end
     else dict_get k (proj st)) →
  ∀ rows k,
    match dict_get k (proj (load_loop rows)) with
    | Some w => ∃ i, first_shortest_by kf rows k w i
    | None => ∀ j r w, rows !! j = Some r →
                workspace_data_of r = Some w → kf w ≠ k
    end.
Proof.
  intros Hinit Hskip Hstep rows k.
  induction rows as [|r rows IH] using rev_ind.
  { unfold load_loop. cbn [foldl]. rewrite Hinit. by intros j r w. }
  rewrite load_loop_snoc.
  assert (Hold : ∀ w i, (∀ w', workspace_data_of r = Some w' → kf w' ≠ k) →
            first_shortest_by kf rows k w i →
            first_shortest_by kf (rows ++ [r]) k w i).
  { intros w i Hout [(r0 & Hi & Hg) Hmin]. split.
    - exists r0. split; [|done].
      rewrite lookup_app_l; [done|by eapply lookup_lt_Some].
    - intros j r' w' [[_ Hj]|[_ ->]]%lookup_snoc_inv Hw' Hk'.
      + by eapply Hmin.
      + by destruct (Hout w' Hw'). }
  assert (Hnone : (∀ w', workspace_data_of r = Some w' → kf w' ≠ k) →
            (∀ j r0 w, rows !! j = Some r0 →
               workspace_data_of r0 = Some w → kf w ≠ k) →
            ∀ j r0 w, (rows ++ [r]) !! j = Some r0 →
               workspace_data_of r0 = Some w → kf w ≠ k).
  { intros Hout Hrows j r0 w [[_ Hj]|[_ ->]]%lookup_snoc_inv Hw.
    - by eapply Hrows.
    - by apply Hout. }
  destruct (workspace_data_of r) as [w0|] eqn:Hw0.
  - rewrite (Hstep _ _ _ _ Hw0).
    destruct (decide (kf w0 = k)) as [Hk|Hk].
    + assert (Hlast : (rows ++ [r]) !! length rows = Some r).
      { by rewrite lookup_app_r, Nat.sub_diag. }
      destruct (dict_get k (proj (load_loop rows))) as [existing|] eqn:E.
      * destruct IH as [i [(r0 & Hi & Hg) Hmin]].
        destruct (len (w_path w0) <? len (w_path existing))%nat eqn:Hlt.
        -- apply Nat.ltb_lt in Hlt. exists (length rows). split; [by eauto|].
           intros j r' w' [[Hj Hr']|[-> ->]]%lookup_snoc_inv Hw' Hk'.
           ++ destruct (Hmin j r' w' Hr' Hw' Hk'). lia.
           ++ rewrite Hw0 in Hw'. injection Hw' as <-. lia.
        -- apply Nat.ltb_ge in Hlt. exists i. split.
           ++ exists r0. split; [|done].
              rewrite lookup_app_l; [done|by eapply lookup_lt_Some].
           ++ intros j r' w' [[Hj Hr']|[-> ->]]%lookup_snoc_inv Hw' Hk'.
              ** by eapply Hmin.
              ** rewrite Hw0 in Hw'. injection Hw' as <-.
                 apply lookup_lt_Some in Hi. lia.
      * exists (length rows). split; [by eauto|].
        intros j r' w' [[Hj Hr']|[-> ->]]%lookup_snoc_inv Hw' Hk'.
        -- by destruct (IH j r' w' Hr' Hw').
        -- rewrite Hw0 in Hw'. injection Hw' as <-. lia.
    + assert (Hout : ∀ w', Some w0 = Some w' → kf w' ≠ k).
      { by intros w' [= <-]. }
      destruct (dict_get k (proj (load_loop rows))) as [w|].
      * destruct IH as [i IH]. exists i. by apply Hold.
      * by apply Hnone.
  - rewrite Hskip by done.
    destruct (dict_get k (proj (load_loop rows))) as [w|].
    + destruct IH as [i IH]. exists i. by apply Hold.
    + by apply Hnone.
Qed.

(** X6. [by_workspace_id] follows the same rule per workspace id: the
    record it holds for an id is that of the first row of minimal
    raw-path length among the kept rows with this id, and an id has no
    record only when no kept row has it. *)
Theorem by_workspace_id_is_first_shortest (rows : list Row) (i0 : Z) :
  match dict_get i0 (by_workspace_id (load_loop rows)) with
  | Some w =>
      ∃ i r, rows !! i = Some r ∧ workspace_data_of r = Some w ∧
             wid r = i0 ∧
        ∀ j r' w', rows !! j = Some r' → workspace_data_of r' = Some w' →
          wid r' = i0 →
          len (w_path w) ≤ len (w_path w') ∧
          (len (w_path w') = len (w_path w) → i ≤ j)
  | None =>
      ∀ j r w, rows !! j = Some r → workspace_data_of r = Some w → wid r ≠ i0
  end.
Proof.
  assert (Hid : ∀ r w, workspace_data_of r = Some w → w_id w = wid r).
  { by intros r w (path & _ & _ & ->)%workspace_data_of_Some. }
  pose proof (keep_first_shortest w_id by_workspace_id eq_refl
                (λ st r H, f_equal by_workspace_id (load_step_skip st r H))
                load_step_by_workspace_id rows i0) as H.
  destruct (dict_get i0 (by_workspace_id (load_loop rows))) as [w|].
  - destruct H as [i [(r & Hi & Hw & Hk) Hmin]]. exists i, r.
    split_and!; [done|done|by rewrite <-(Hid r w)|].
    intros j r' w' Hj Hw' Hk'. apply (Hmin j r' w' Hj Hw').
    by rewrite (Hid r' w').
  - intros j r w Hj Hw. rewrite <-(Hid r w Hw). by eapply H.
Qed.

End ByWorkspaceId.

(** ** The order of the result list *)

Section SortFacts.
Context {A : Type} (key : A → string).

Definition key_le (a b : A) : Prop := String.leb (key a) (key b) = true.

Lemma key_le_total a b : key_le a b ∨ key_le b a.
Proof. apply String.leb_total. Qed.

Lemma key_le_trans a b c : key_le a b → key_le b c → key_le a c.
Proof.
  unfold key_le. rewrite <-!Is_true_true.
  apply (transitivity (R := String.le)).
Qed.

Lemma key_le_refl a : key_le a a.
Proof. by destruct (key_le_total a a). Qed.

Lemma insert_by_Permutation x l : insert_by key x l ≡ₚ x :: l.
Proof.
  induction l as [|y l IH]; [done|]. cbn [insert_by].
  destruct (String.leb _ _); [done|]. rewrite IH. apply Permutation_swap.
Qed.

Lemma sort_by_Permutation l : sort_by key l ≡ₚ l.
Proof.
  induction l as [|x l IH]; [done|]. cbn [sort_by].
  by rewrite insert_by_Permutation, IH.
Qed.

Lemma insert_by_sorted x l :
  StronglySorted key_le l → StronglySorted key_le (insert_by key x l).
Proof.
  induction 1 as [|y l Hl IH Hy]; cbn [insert_by].
  - by repeat constructor.
  - destruct (String.leb (key x) (key y)) eqn:E.
    + constructor; [by constructor|]. constructor; [done|].
      eapply Forall_impl; [exact Hy|]. intros z Hz.
      by apply (key_le_trans x y z).
    + constructor; [done|]. rewrite insert_by_Permutation.
      constructor; [|done].
      destruct (key_le_total x y) as [H|H]; [|done].
      unfold key_le in H. congruence.
Qed.

Lemma sort_by_sorted l : StronglySorted key_le (sort_by key l).
Proof.
  induction l as [|x l IH]; [constructor|]. by apply insert_by_sorted.
Qed.

Lemma insert_by_filter k x s :
  filter (λ a, key a = k) (insert_by key x s) =
  filter (λ a, key a = k) (x :: s).
Proof.
  induction s as [|y s IH]; [done|].
  cbn [insert_by]. destruct (String.leb (key x) (key y)) eqn:E; [done|].
  rewrite (filter_cons _ y), IH, (filter_cons _ x), (filter_cons _ x).
  rewrite (filter_cons _ y).
  destruct (decide (key y = k)) as [Hy|Hy]; [|done].
  destruct (decide (key x = k)) as [Hx|Hx]; [|done].
  pose proof (key_le_refl x) as H. unfold key_le in H.
  rewrite Hx in H, E. rewrite Hy in E. congruence.
Qed.

(** Records with equal keys keep the order they had. *)
Lemma sort_by_stable k l :
  filter (λ a, key a = k) (sort_by key l) = filter (λ a, key a = k) l.
Proof.
  induction l as [|x l IH]; [done|]. cbn [sort_by].
  by rewrite insert_by_filter, !(filter_cons _ x), IH.
Qed.

End SortFacts.

Section SortedResults.
Variable path_name : string → string.

(** X7. The list returned for fetched rows holds the same records as the
    result list before sorting; it is in ascending order of the
    lower-cased name of the path, and records with equal names keep the
    order they had in the dict. *)
Theorem load_workspaces_sorted (rows : list Row) :
  let results := load_results (load_loop rows) in
  let sorted := _load_workspaces path_name (DbRows rows) in
  sorted ≡ₚ results ∧
  StronglySorted
    (λ a b, String.leb (lower (path_name (w_path a)))
                       (lower (path_name (w_path b))) = true) sorted ∧
  ∀ k, filter (λ w, lower (path_name (w_path w)) = k) sorted =
       filter (λ w, lower (path_name (w_path w)) = k) results.
Proof.
  cbn zeta. cbn [_load_workspaces]. split_and!.
  - apply sort_by_Permutation.
  - apply (sort_by_sorted (sort_key path_name)).
  - intros k. apply (sort_by_stable (sort_key path_name)).
Qed.

End SortedResults.

(** ** The entries that [query] returns *)

Section UniqueKeys.

Lemma unique_pass_snoc rs r :
  unique_pass (rs ++ [r]) =
  if decide (entry_key r ∈ entry_key <$> rs)
  then unique_pass rs else unique_pass rs ++ [r].
Proof.
  destruct (unique_pass_seen rs) as (Hseen & _ & _).
  unfold unique_pass. rewrite unique_pass_snoc_raw. unfold unique_step at 1.
  destruct (decide (entry_key r ∈ entry_key <$> rs)) as [Hin|Hout].
  - apply Hseen in Hin. by destruct (decide _).
  - rewrite <-Hseen in Hout. by destruct (decide _).
Qed.

Lemma unique_pass_keys rs key :
  key ∈ entry_key <$> unique_pass rs ↔ key ∈ entry_key <$> rs.
Proof.
  destruct (unique_pass_seen rs) as (Hseen & Hemit & _).
  unfold unique_pass. by rewrite <-Hemit, Hseen.
Qed.

Lemma unique_pass_NoDup rs : NoDup (entry_key <$> unique_pass rs).
Proof.
  induction rs as [|r rs IH] using rev_ind; [apply NoDup_nil_2|].
  rewrite unique_pass_snoc. destruct (decide _) as [Hin|Hout]; [done|].
  rewrite fmap_app. change (entry_key <$> [r]) with [entry_key r].
  apply NoDup_app. split_and!; [done| |apply NoDup_singleton].
  intros key Hkey ->%list_elem_of_singleton.
  by apply (proj1 (unique_pass_keys rs _)) in Hkey.
Qed.

Lemma unique_pass_id rs : NoDup (entry_key <$> rs) → unique_pass rs = rs.
Proof.
  induction rs as [|r rs IH] using rev_ind; [done|].
  rewrite fmap_app. change (entry_key <$> [r]) with [entry_key r].
  intros (Hrs & Hr & _)%NoDup_app.
  rewrite unique_pass_snoc, IH by done.
  rewrite decide_False; [done|]. intros Hin. apply (Hr _ Hin).
  apply list_elem_of_here.
Qed.

(** X8. Whatever the entries, the last pass returns entries with
    pairwise distinct keys and loses no key; it changes nothing in a
    list whose keys are already distinct, so a second run changes
    nothing. *)
Theorem unique_pass_distinct_keys (rs : list entry) :
  NoDup (entry_key <$> unique_pass rs) ∧
  (∀ key, key ∈ entry_key <$> unique_pass rs ↔ key ∈ entry_key <$> rs) ∧
  (NoDup (entry_key <$> rs) → unique_pass rs = rs) ∧
  unique_pass (unique_pass rs) = unique_pass rs.
Proof.
  split_and!.
  - apply unique_pass_NoDup.
  - apply unique_pass_keys.
  - apply unique_pass_id.
  - apply unique_pass_id, unique_pass_NoDup.
Qed.

End UniqueKeys.

Section QueryEntries.
Variable path_name : string → string.
Variable zed_db_path : string.

Lemma filter_by_query_matches q ws :
  filter_by_query q ws = filter (λ w, matches_query q w = true) ws.
Proof.
  unfold filter_by_query, matches_query. case_bool_decide as Hq.
  - induction ws as [|w ws IH]; [done|]. by rewrite filter_cons_True, <-IH.
  - induction ws as [|w ws IH]; [done|]. rewrite !filter_cons, IH.
    cbn [orb]. by destruct (decide _).
Qed.

Lemma query_nonempty_load db q w ws :
  _load_workspaces path_name db = w :: ws →
  query path_name zed_db_path db q =
  unique_pass (present path_name <$>
    filter (λ w, matches_query (strip (lower q)) w = true) (w :: ws)).
Proof. intros H. unfold query. by rewrite H, filter_by_query_matches. Qed.

(** X9. When [_load_workspaces] returns no record, [query] returns the
    single "nothing found" entry. Otherwise every entry it returns
    presents a loaded record that passes the filter (the stripped,
    lower-cased query is empty or occurs in the lower-cased path), every
    loaded record that passes the filter is represented by an entry with
    its key, the entries follow the order of the loaded records, and no
    two entries have the same key. *)
Theorem query_entries (db : fetch_outcome) (q : string) :
  let ws := _load_workspaces path_name db in
  let q' := strip (lower q) in
  let es := query path_name zed_db_path db q in
  match ws with
  | [] => es = [not_found zed_db_path]
  | _ =>
      (∀ e, e ∈ es →
         ∃ w, w ∈ ws ∧ matches_query q' w = true ∧ e = present path_name w) ∧
      (∀ w, w ∈ ws → matches_query q' w = true →
         ∃ e, e ∈ es ∧ entry_key e = entry_key (present path_name w)) ∧
      es `sublist_of` (present path_name <$> ws) ∧
      NoDup (entry_key <$> es)
  end.
Proof.
  cbn zeta. destruct (_load_workspaces path_name db) as [|w0 ws] eqn:E.
  { unfold query. by rewrite E. }
  rewrite (query_nonempty_load _ _ _ _ E).
  set (fs := filter _ (w0 :: ws)).
  destruct (unique_pass_seen (present path_name <$> fs)) as (_ & _ & Hsub).
  fold (unique_pass (present path_name <$> fs)) in Hsub.
  split_and!.
  - intros e He. eapply elem_of_sublist in He; [|exact Hsub].
    apply list_elem_of_fmap in He as (w & -> & Hw).
    apply list_elem_of_filter in Hw as [Hm Hw]. eauto.
  - intros w Hw Hm.
    assert (Hk : entry_key (present path_name w) ∈
                 entry_key <$> unique_pass (present path_name <$> fs)).
    { apply unique_pass_keys. apply list_elem_of_fmap_2, list_elem_of_fmap_2.
      by apply list_elem_of_filter. }
    apply list_elem_of_fmap in Hk as (e & He & Hin). eauto.
  - etrans; [exact Hsub|]. apply fmap_sublist, sublist_filter.
  - apply unique_pass_NoDup.
Qed.

(** X10. [query] returns the empty list exactly when records were loaded
    and none of them passes the filter; in particular never for an
    empty query. *)
Theorem query_empty_iff (db : fetch_outcome) (q : string) :
  query path_name zed_db_path db q = [] ↔
  _load_workspaces path_name db ≠ [] ∧
  ∀ w, w ∈ _load_workspaces path_name db →
       matches_query (strip (lower q)) w = false.
Proof.
  destruct (_load_workspaces path_name db) as [|w0 ws] eqn:E.
  { unfold query. rewrite E. split; [done|by intros [? _]]. }
  rewrite (query_nonempty_load _ _ _ _ E).
  set (fs := filter _ (w0 :: ws)). split.
  - intros Hes. split; [done|]. intros w Hw.
    destruct (matches_query _ w) eqn:Hm; [|done].
    assert (Hk : entry_key (present path_name w) ∈
                 entry_key <$> unique_pass (present path_name <$> fs)).
    { apply unique_pass_keys. apply list_elem_of_fmap_2, list_elem_of_fmap_2.
      by apply list_elem_of_filter. }
    rewrite Hes in Hk. by apply elem_of_nil in Hk.
  - intros [_ Hall].
    assert (fs = []) as ->; [|done].
    apply elem_of_nil_inv. intros w [Hm Hw]%list_elem_of_filter.
    specialize (Hall w Hw). congruence.
Qed.

End QueryEntries.

(** ** From the rows to the entries, and from the entries to the menu *)

Section EntriesOfRows.
Variable path_name : string → string.
Variable zed_db_path : string.

Lemma query_elem db q e :
  e ∈ query path_name zed_db_path db q →
  e = not_found zed_db_path ∨
  ∃ w, w ∈ _load_workspaces path_name db ∧ e = present path_name w.
Proof.
  destruct (_load_workspaces path_name db) as [|w0 ws] eqn:E.
  { unfold query. rewrite E. intros ->%list_elem_of_singleton. by left. }
  rewrite (query_nonempty_load _ _ _ _ _ _ E). intros He. right.
  destruct (unique_pass_seen
              (present path_name <$>
                 filter (λ w, matches_query (strip (lower q)) w = true)
                   (w0 :: ws))) as (_ & _ & Hsub).
  eapply elem_of_sublist in He; [|exact Hsub].
  apply list_elem_of_fmap in He as (w & -> & Hw).
  apply list_elem_of_filter in Hw as [_ Hw]. eauto.
Qed.

(** X11. For fetched rows, every entry of [query] other than the
    "nothing found" entry presents the record of a row: its subtitle is
    the path column of that row as it was read, and the row is the
    first of minimal path length among the kept rows with its
    normalized key. *)
Theorem query_entries_come_from_rows (rows : list Row) (q : string) (e : entry) :
  e ∈ query path_name zed_db_path (DbRows rows) q →
  e = not_found zed_db_path ∨
  ∃ i r w, rows !! i = Some r ∧ workspace_data_of r = Some w ∧
           paths r = SText (SubTitle e) ∧ e = present path_name w ∧
           first_shortest_at rows (normalize (w_path w)) w i.
Proof.
  intros [->|(w & Hw & ->)]%query_elem; [by left|]. right.
  cbn [_load_workspaces] in Hw. rewrite sort_by_Permutation in Hw.
  rewrite load_results_by_normalized in Hw. unfold dict_values in Hw.
  apply list_elem_of_fmap in Hw as ([k w'] & -> & Hin). cbn [snd].
  destruct (load_loop_NoDup rows) as [Hnd _].
  apply dict_elem_of_get in Hin; [|done].
  pose proof (by_normalized_spec rows k) as H. rewrite Hin in H.
  destruct H as [i Hi]. pose proof Hi as [(r & Hr & Hw & Hk) _].
  exists i, r, w'. split_and!; [done|done| |done|by rewrite Hk].
  by apply workspace_data_of_path in Hw as [-> _].
Qed.

Lemma context_menu_launch_parameters w :
  context_menu (launch_parameters w) =
  Returns
    [ {| MenuTitle :=
           "Open in Zed " +:+
           (if w_is_ssh w
            then "(SSH: " +:+ py_str (of_opt_str (mjoin (w_ssh_host w))) +:+ ")"
            else if is_wsl_path (w_path w) then "(WSL)" else "(Windows)");
         MenuSubTitle := PStr (w_path w);
         MenuIcoPath := "assets/zed.png";
         MenuAction := {| method := "open_in_zed";
                          parameters := launch_parameters w |} |} ].
Proof.
  unfold context_menu, launch_parameters.
  cbn [lookup list_lookup default from_option id truthy].
  by destruct (w_is_ssh w).
Qed.

(** X12. The context data of every entry that [query] returns is
    accepted by [context_menu]: it returns exactly one descriptor, whose
    subtitle is the entry's subtitle and whose [open_in_zed] action
    carries the same five parameters. *)
Theorem context_menu_accepts_context_data
    (db : fetch_outcome) (q : string) (e : entry) (d : list pyval) :
  e ∈ query path_name zed_db_path db q → ContextData e = Some d →
  ∃ m, context_menu d = Returns [m] ∧
       MenuSubTitle m = PStr (SubTitle e) ∧
       MenuAction m = {| method := "open_in_zed"; parameters := d |} ∧
       length d = 5.
Proof.
  intros [->|(w & _ & ->)]%query_elem; [done|].
  cbn [ContextData present]. intros [= <-].
  rewrite context_menu_launch_parameters. eauto.
Qed.

(** X13. For the record of a row the label of the context menu follows
    the connection type: the host for SSH, ["(WSL)"] for WSL and
    ["(Windows)"] for Local. *)
Theorem context_menu_label_follows_type (r : Row) (w : workspace) :
  workspace_data_of r = Some w →
  ∃ m, context_menu (launch_parameters w) = Returns [m] ∧
       MenuTitle m =
         "Open in Zed " +:+
         match connection_type_of w with
         | SSH => "(SSH: " +:+ default "" (rc_host r) +:+ ")"
         | WSL => "(WSL)"
         | Local => "(Windows)"
         end.
Proof.
  intros (path & _ & _ & ->)%workspace_data_of_Some.
  rewrite context_menu_launch_parameters. eexists. split; [done|].
  cbn [MenuTitle]. f_equal. unfold connection_type_of, workspace_data.
  cbn [w_is_ssh w_is_wsl w_ssh_host w_path mjoin option_join].
  destruct (bool_decide (rc_kind r = Some "ssh") &&
            bool_decide (rc_host r ≠ None)) eqn:E; cbn [negb andb].
  - apply andb_true_iff in E as [_ Hh%bool_decide_eq_true].
    by destruct (rc_host r).
  - by destruct (is_wsl_path path).
Qed.

End EntriesOfRows.

(** ** Launching a record *)

Section LaunchFacts.
Variable path_exists : string → bool.
Variable path_str : string → string.

(** X14. Selecting the record of a row launches by its connection type:
    the SSH URI for SSH, the editor through [wsl] for WSL, and for Local
    the editor on the existing path or the browser on ["file:///"]. The
    one exception is an SSH record whose host is the empty string,
    which is launched by its path like a record without a remote. *)
Theorem open_workspace_follows_type (r : Row) (w : workspace) :
  workspace_data_of r = Some w →
  let by_path :=
    if is_wsl_path (w_path w) then Popen ["wsl"; "zed"; w_path w] false true
    else if path_exists (w_path w)
         then Popen ["zed"; path_str (w_path w)] false true
         else webbrowser_open "file:///" in
  open_workspace path_exists path_str (w_path w) (w_is_ssh w)
    (mjoin (w_ssh_host w)) (mjoin (w_ssh_user w)) (mjoin (w_ssh_port w)) =
  match connection_type_of w with
  | SSH =>
      if bool_decide (rc_host r = Some "") then by_path
      else Popen ["zed"; build_ssh_uri (default "" (rc_host r)) (w_path w)
                           (rc_user r) (rc_port r)] false true
  | WSL => Popen ["wsl"; "zed"; w_path w] false true
  | Local =>
      if path_exists (w_path w)
      then Popen ["zed"; path_str (w_path w)] false true
      else webbrowser_open "file:///"
  end.
Proof.
  intros (path & _ & _ & ->)%workspace_data_of_Some. cbn zeta.
  unfold open_workspace, connection_type_of, workspace_data.
  cbn [w_path w_is_ssh w_is_wsl w_ssh_host w_ssh_user w_ssh_port
       mjoin option_join].
  destruct (bool_decide (rc_kind r = Some "ssh") &&
            bool_decide (rc_host r ≠ None)) eqn:E; cbn [negb andb].
  - apply andb_true_iff in E as [_ Hh%bool_decide_eq_true].
    destruct (rc_host r) as [h|]; [|done]. cbn [of_opt_str truthy default].
    destruct (decide (h = "")) as [->|Hne].
    + by rewrite !bool_decide_eq_true_2.
    + rewrite (bool_decide_eq_false_2 (h = "")) by done.
      by rewrite bool_decide_eq_false_2 by congruence.
  - by destruct (is_wsl_path path).
Qed.

(** X15. [open_in_zed] always spawns a process, without a shell and
    without a console window. It does what [open_workspace] does for an
    SSH launch and for a WSL path; for any other path it spawns the
    editor on the path as given, where [open_workspace] first tests that
    the path exists and opens ["file:///"] in the browser when it does
    not. *)
Theorem open_in_zed_and_open_workspace
    (path : string) (is_ssh : bool)
    (ssh_host ssh_user : option string) (ssh_port : option Z) :
  (∃ args, open_in_zed path is_ssh ssh_host ssh_user ssh_port =
           Popen args false true) ∧
  if is_ssh && truthy (of_opt_str ssh_host) || is_wsl_path path
  then open_workspace path_exists path_str path is_ssh ssh_host ssh_user ssh_port
       = open_in_zed path is_ssh ssh_host ssh_user ssh_port
  else open_in_zed path is_ssh ssh_host ssh_user ssh_port =
         Popen ["zed"; path] false true ∧
       open_workspace path_exists path_str path is_ssh ssh_host ssh_user ssh_port
       = if path_exists path then Popen ["zed"; path_str path] false true
         else webbrowser_open "file:///".
Proof.
  unfold open_in_zed, open_workspace.
  destruct (is_ssh && truthy (of_opt_str ssh_host)); cbn [orb]; [by eauto|].
  destruct (is_wsl_path path); by eauto.
Qed.

End LaunchFacts.

(** ** Instances of the further theorems *)

Section FurtherInstances.

Lemma query_entries_come_from_rows_witness :
  let rows := [local_row 1 "/a/b/proj/"; local_row 2 "/a/b/Proj"] in
  let e := present windows_name (workspace_data (local_row 2 "/a/b/Proj") "/a/b/Proj") in
  e ∈ query windows_name "db.sqlite" (DbRows rows) "proj" ∧
  (e = not_found "db.sqlite" ∨
   ∃ i r w, rows !! i = Some r ∧ workspace_data_of r = Some w ∧
            paths r = SText (SubTitle e) ∧ e = present windows_name w ∧
            first_shortest_at rows (normalize (w_path w)) w i).
Proof.
  assert (H : present windows_name
                (workspace_data (local_row 2 "/a/b/Proj") "/a/b/Proj")
              ∈ query windows_name "db.sqlite"
                  (DbRows [local_row 1 "/a/b/proj/"; local_row 2 "/a/b/Proj"])
                  "proj").
  { vm_compute. apply list_elem_of_here. }
  split; [exact H|].
  exact (query_entries_come_from_rows windows_name "db.sqlite" _ _ _ H).
Defined.

Lemma context_menu_accepts_context_data_witness :
  let db := DbRows [ssh_row 3 "/srv/app" "box1" (Some "dev") (Some 2222%Z)] in
  let w := workspace_data
             (ssh_row 3 "/srv/app" "box1" (Some "dev") (Some 2222%Z))
             "/srv/app" in
  present windows_name w ∈ query windows_name "db.sqlite" db "" ∧
  ContextData (present windows_name w) = Some (launch_parameters w) ∧
  ∃ m, context_menu (launch_parameters w) = Returns [m] ∧
       MenuSubTitle m = PStr (SubTitle (present windows_name w)) ∧
       MenuAction m = {| method := "open_in_zed";
                         parameters := launch_parameters w |} ∧
       length (launch_parameters w) = 5.
Proof.
  assert (H : present windows_name
                (workspace_data
                   (ssh_row 3 "/srv/app" "box1" (Some "dev") (Some 2222%Z))
                   "/srv/app")
              ∈ query windows_name "db.sqlite"
                  (DbRows [ssh_row 3 "/srv/app" "box1" (Some "dev")
                             (Some 2222%Z)]) "").
  { vm_compute. apply list_elem_of_here. }
  split; [exact H|]. split; [reflexivity|].
  exact (context_menu_accepts_context_data windows_name "db.sqlite"
           _ _ _ _ H eq_refl).
Defined.

Lemma context_menu_label_follows_type_witness :
  let r := local_row 2 "/home/x/app" in
  let w := workspace_data r "/home/x/app" in
  workspace_data_of r = Some w ∧
  ∃ m, context_menu (launch_parameters w) = Returns [m] ∧
       MenuTitle m =
         "Open in Zed " +:+
         match connection_type_of w with
         | SSH => "(SSH: " +:+ default "" (rc_host r) +:+ ")"
         | WSL => "(WSL)"
         | Local => "(Windows)"
         end.
Proof.
  split; [by vm_compute|].
  apply context_menu_label_follows_type. by vm_compute.
Defined.

Lemma open_workspace_follows_type_witness :
  let r := ssh_row 3 "/srv/app" "box1" (Some "dev") (Some 2222%Z) in
  let w := workspace_data r "/srv/app" in
  workspace_data_of r = Some w ∧
  open_workspace (λ _, true) id (w_path w) (w_is_ssh w)
    (mjoin (w_ssh_host w)) (mjoin (w_ssh_user w)) (mjoin (w_ssh_port w)) =
  Popen ["zed"; "ssh://dev@box1:2222/srv/app"] false true.
Proof.
  split; [by vm_compute|].
  rewrite (open_workspace_follows_type (λ _, true) id
             (ssh_row 3 "/srv/app" "box1" (Some "dev") (Some 2222%Z))
             (workspace_data
                (ssh_row 3 "/srv/app" "box1" (Some "dev") (Some 2222%Z))
                "/srv/app")); by vm_compute.
Defined.

End FurtherInstances.

(** ** No kept row is lost *)

Section Represented.
Variable path_name : string → string.

(** X16. Every row that passes the guard of the loop is represented in
    the list that [_load_workspaces] returns: the list holds a record
    with the same normalized key whose raw path is not longer than the
    row's. *)
Theorem kept_row_is_represented (rows : list Row) (r : Row) (w' : workspace) :
  r ∈ rows → workspace_data_of r = Some w' →
  ∃ w, w ∈ _load_workspaces path_name (DbRows rows) ∧
       normalize (w_path w) = normalize (w_path w') ∧
       len (w_path w) ≤ len (w_path w').
Proof.
  intros [j Hj]%list_elem_of_lookup Hw'.
  pose proof (by_normalized_spec rows (normalize (w_path w'))) as H.
  destruct (dict_get _ _) as [w|] eqn:E.
  - destruct H as [i [(r0 & _ & _ & Hk) Hmin]]. exists w. split_and!.
    + cbn [_load_workspaces]. rewrite sort_by_Permutation.
      rewrite load_results_by_normalized. unfold dict_values.
      apply dict_get_elem_of in E. apply list_elem_of_fmap.
      by exists (normalize (w_path w'), w).
    + done.
    + by destruct (Hmin j r w' Hj).
  - by destruct (H j r w' Hj).
Qed.

End Represented.

Lemma kept_row_is_represented_witness :
  let rows := [local_row 1 "/a/b/proj/"; local_row 2 "/a/b/Proj"] in
  let r := local_row 1 "/a/b/proj/" in
  let w' := workspace_data r "/a/b/proj/" in
  r ∈ rows ∧ workspace_data_of r = Some w' ∧
  ∃ w, w ∈ _load_workspaces windows_name (DbRows rows) ∧
       normalize (w_path w) = normalize (w_path w') ∧
       len (w_path w) ≤ len (w_path w').
Proof.
  assert (H1 : local_row 1 "/a/b/proj/"
               ∈ [local_row 1 "/a/b/proj/"; local_row 2 "/a/b/Proj"])
    by apply list_elem_of_here.
  assert (H2 : workspace_data_of (local_row 1 "/a/b/proj/") =
               Some (workspace_data (local_row 1 "/a/b/proj/") "/a/b/proj/"))
    by (by vm_compute).
  split; [exact H1|]. split; [exact H2|].
  exact (kept_row_is_represented windows_name _ _ _ H1 H2).
Defined.

(** ** The title of every record that passes the filter *)

Section Titles.
Variable path_name : string → string.

(** The records that [_load_workspaces] returns: the record of the
    [except] branch, or the record of a fetched row. *)
Lemma load_workspaces_elem db w :
  w ∈ _load_workspaces path_name db →
  (∃ e, w = error_workspace e) ∨ (∃ r, workspace_data_of r = Some w).
Proof.
  destruct db as [|e|rows]; cbn [_load_workspaces].
  - by intros ?%elem_of_nil.
  - intros ->%list_elem_of_singleton. eauto.
  - rewrite sort_by_Permutation, load_results_by_normalized.
    unfold dict_values. intros ([k w'] & -> & Hin)%list_elem_of_fmap.
    destruct (load_loop_NoDup rows) as [Hnd _].
    apply dict_elem_of_get in Hin; [|done].
    pose proof (by_normalized_spec rows k) as H. rewrite Hin in H.
    destruct H as [i [(r & _ & Hw & _) _]]. eauto.
Qed.

Lemma title_of_cases w c rest :
  (if bool_decide (path_name (w_path w) = "")
   then w_path w else path_name (w_path w)) = String c rest →
  title_of path_name w =
  if w_is_ssh w then
    String (upper_char c) (lower rest) +:+ " (SSH: " +:+
    py_str (match w_ssh_host w with
            | Some h => of_opt_str h
            | None => PStr "remote"
            end) +:+ ")"
  else if w_is_wsl w then String (upper_char c) (lower rest) +:+ " (WSL)"
  else String (upper_char c) (lower rest).
Proof.
  intros E. unfold title_of, display_name. rewrite E.
  by rewrite (bool_decide_eq_false_2 (String c rest = "")).
Qed.

(** C5 (as the code has it). For every record that passes the filter of
    [query], the record of a row and the record made after an exception
    alike, the title starts with the last path segment (the whole path
    when [Path(path).name] is empty) in the form [str.capitalize] gives
    it: first character upper-cased and every other character
    lower-cased; it is followed by [" (SSH: <host>)"] for SSH, with the
    host of the record, by [" (WSL)"] for WSL, and by nothing for
    Local. *)
Theorem title_is_capitalized_segment
    (db : fetch_outcome) (q : string) (w : workspace) :
  w ∈ filter_by_query (strip (lower q)) (_load_workspaces path_name db) →
  let segment :=
    if bool_decide (path_name (w_path w) = "")
    then w_path w else path_name (w_path w) in
  ∃ c rest, segment = String c rest ∧
    let cap := String (upper_char c) (lower rest) in
    match connection_type_of w with
    | SSH => ∃ h, w_ssh_host w = Some (Some h) ∧
                  Title (present path_name w) =
                    cap +:+ " (SSH: " +:+ h +:+ ")"
    | WSL => Title (present path_name w) = cap +:+ " (WSL)"
    | Local => Title (present path_name w) = cap
    end.
Proof.
  rewrite filter_by_query_matches. intros [_ Hw]%list_elem_of_filter.
  cbn zeta. cbn [Title present].
  assert (Hpath : w_path w ≠ "").
  { apply load_workspaces_elem in Hw as [[e ->]|[r Hr]]; [done|].
    by apply workspace_data_of_path in Hr as [_ ?]. }
  destruct (if bool_decide (path_name (w_path w) = "")
            then w_path w else path_name (w_path w)) as [|c rest] eqn:E.
  { by case_bool_decide. }
  exists c, rest. split; [done|].
  rewrite (title_of_cases w c rest E). unfold connection_type_of.
  apply load_workspaces_elem in Hw as [[e ->]|[r Hr]]; [done|].
  apply workspace_data_of_Some in Hr as (path & _ & _ & ->).
  unfold workspace_data.
  cbn [w_path w_is_ssh w_is_wsl w_ssh_host].
  destruct (bool_decide (rc_kind r = Some "ssh") &&
            bool_decide (rc_host r ≠ None)) eqn:Hs; cbn [negb andb].
  - apply andb_true_iff in Hs as [_ Hh%bool_decide_eq_true].
    destruct (rc_host r) as [h|]; [|done]. by exists h.
  - by destruct (is_wsl_path path).
Qed.

End Titles.

(** The record made after an exception passes the filter of the empty
    query; its title is the capitalized error text. *)
Lemma title_is_capitalized_segment_witness :
  let w := error_workspace "locked" in
  w ∈ filter_by_query (strip (lower ""))
        (_load_workspaces windows_name (DbError "locked")) ∧
  ∃ c rest,
    (if bool_decide (windows_name (w_path w) = "")
     then w_path w else windows_name (w_path w)) = String c rest ∧
    match connection_type_of w with
    | SSH => ∃ h, w_ssh_host w = Some (Some h) ∧
                  Title (present windows_name w) =
                    String (upper_char c) (lower rest) +:+
                    " (SSH: " +:+ h +:+ ")"
    | WSL => Title (present windows_name w) =
               String (upper_char c) (lower rest) +:+ " (WSL)"
    | Local => Title (present windows_name w) =
                 String (upper_char c) (lower rest)
    end.
Proof.
  assert (H : error_workspace "locked"
              ∈ filter_by_query (strip (lower ""))
                  (_load_workspaces windows_name (DbError "locked"))).
  { vm_compute. apply list_elem_of_here. }
  split; [exact H|].
  exact (title_is_capitalized_segment windows_name _ _ _ H).
Defined.

Example error_record_title :
  Title (present windows_name (error_workspace "locked")) =
  "<error reading db: locked>".
Proof. by vm_compute. Qed.

Example row_record_titles :
  Title <$> query windows_name "db.sqlite"
    (DbRows [local_row 1 "/a/myProj";
             local_row 2 "/home/x/App";
             ssh_row 3 "/srv/Tool" "box1" None None]) "" =
  ["App (WSL)"; "Myproj"; "Tool (SSH: box1)"].
Proof. by vm_compute. Qed.
